(** * WebSocketHelper: request/response correlation over one socket

    A shallow embedding of [AutomatedTests/WebSocketHelper.js]: the
    module-level [eventEmitter] with the listeners that [waitForResponse]
    installs on it, the [send] helper, the [onmessage] handler set up by
    [connect], and the asynchronous methods of the [WebSocketHelper] class.

    JavaScript values are modelled as far as the helper inspects them:
    truthiness ([!x], [a || b], [if (x)]), strict equality, string
    concatenation, [x >= 0] and [x[0]]. Strings are sequences of UTF-16
    code units and numbers are doubles. The emitter is Node's: it emits
    [newListener] before a listener is added and [removeListener] after one
    is removed, and throws the event [error] when nobody listens to it. *)

From Stdlib Require Import Ascii.
From Corelib Require Import PrimFloat SpecFloat FloatOps.
From stdpp Require Import gmap strings list sorting pretty.

#[local] Set Warnings "-clear-no-such-hyp".

Local Open Scope string_scope.
Local Open Scope list_scope.
Local Open Scope stdpp_scope.
Local Open Scope Z_scope.

(** ** Strings *)

(** A JavaScript string is a sequence of UTF-16 code units, each a number
    below [2^16]. *)
Definition jsstring : Type := list N.

(** UTF-8 bytes read as code units: a code point beyond the basic plane
    gives a surrogate pair. *)
Fixpoint utf16 (bytes : list N) : jsstring :=
  match bytes with
  | [] => []
  | b :: r =>
      if (b <? 192)%N then b :: utf16 r
      else if (b <? 224)%N then
        match r with
        | c :: r => ((b - 192) * 64 + (c - 128))%N :: utf16 r
        | _ => [b]
        end
      else if (b <? 240)%N then
        match r with
        | c :: d :: r => ((b - 224) * 4096 + (c - 128) * 64 + (d - 128))%N :: utf16 r
        | _ => [b]
        end
      else
        match r with
        | c :: d :: e :: r =>
            let cp := ((b - 240) * 262144 + (c - 128) * 4096
                       + (d - 128) * 64 + (e - 128) - 65536)%N in
            (55296 + cp / 1024)%N :: (56320 + cp mod 1024)%N :: utf16 r
        | _ => [b]
        end
  end.

(** The string that a literal of the source denotes. *)
Definition lit (s : string) : jsstring :=
  utf16 (Ascii.N_of_ascii <$> String.list_ascii_of_string s).

Arguments lit : simpl never.

(** ** Numbers

    A number is an IEEE 754 double, held as a primitive float. *)

(** [m * 2^e2 * 10^e10] as a fraction with positive denominator. *)
Definition scaled (m e2 e10 : Z) : Z * Z :=
  (m * 2 ^ Z.max 0 e2 * 10 ^ Z.max 0 e10, 2 ^ Z.max 0 (- e2) * 10 ^ Z.max 0 (- e10)).

Definition frac_le (a b : Z * Z) : bool := a.1 * b.2 <=? b.1 * a.2.
Definition frac_lt (a b : Z * Z) : bool := a.1 * b.2 <? b.1 * a.2.

(** The decimal position of [v > 0]: the [p] with [10^p <= v < 10^(p+1)],
    looked for around the estimate that the binary position [t] gives. *)
Definition position (v : Z * Z) (t : Z) : Z :=
  let est := t * 30103 / 100000 in
  default (est - 2)
    (head (filter (λ p, frac_le (scaled 1 0 p) v = true) [est + 1; est; est - 1])).

(** Shortest decimal that reads back as the double [m * 2^e]: [(s, q)] with
    value [s * 10^q], the nearest to the double among the shortest, [s]
    without trailing zero. *)
Fixpoint strip_zeros (fuel : nat) (s q : Z) : Z * Z :=
  match fuel with
  | O => (s, q)
  | S fuel => if (s mod 10 =? 0) && (0 <? s) then strip_zeros fuel (s / 10) (q + 1) else (s, q)
  end.

Definition shortest (m e : Z) : Z * Z :=
  let v := scaled m e 0 in
  let lo := if (m =? 2 ^ 52) && (-1074 <? e)
            then scaled (4 * m - 1) (e - 2) 0 else scaled (2 * m - 1) (e - 1) 0 in
  let hi := scaled (2 * m + 1) (e - 1) 0 in
  let inside c := if Z.even m then frac_le lo c && frac_le c hi
                  else frac_lt lo c && frac_lt c hi in
  let p := position v (Z.log2 m + e) in
  let try k :=
    let q := p + 1 - k in
    let s := (v.1 * 10 ^ Z.max 0 (- q)) / (v.2 * 10 ^ Z.max 0 q) in
    let below := inside (scaled s 0 q) && (0 <? s) in
    let above := inside (scaled (s + 1) 0 q) in
    let twice := (2 * v.1, v.2) in
    let middle := scaled (2 * s + 1) 0 q in
    if below && above then
      if frac_lt twice middle then Some (s, q)
      else if frac_lt middle twice then Some (s + 1, q)
      else Some (if Z.even s then s else s + 1, q)
    else if below then Some (s, q)
    else if above then Some (s + 1, q)
    else None in
  match omap try [1; 2; 3; 4; 5; 6; 7; 8; 9; 10; 11; 12; 13; 14; 15; 16; 17] with
  | (s, q) :: _ => strip_zeros 20 s q
  | [] => (m, 0)
  end.

Definition digits_of (s : Z) : jsstring := lit (pretty s).
Definition zeros (n : Z) : jsstring := replicate (Z.to_nat n) 48%N.

(** [Number::toString] of a positive finite double [m * 2^e]. *)
Definition positive_to_string (m e : Z) : jsstring :=
  let '(s, q) := shortest m e in
  let ds := digits_of s in
  let k := Z.of_nat (length ds) in
  let n := q + k in
  if (k <=? n) && (n <=? 21) then ds ++ zeros (n - k)
  else if (0 <? n) && (n <=? 21) then
    take (Z.to_nat n) ds ++ lit "." ++ drop (Z.to_nat n) ds
  else if (-6 <? n) && (n <=? 0) then lit "0." ++ zeros (- n) ++ ds
  else
    let exponent := lit (if 0 <=? n - 1 then "e+" else "e-") ++ digits_of (Z.abs (n - 1)) in
    if k =? 1 then ds ++ exponent
    else take 1 ds ++ lit "." ++ drop 1 ds ++ exponent.

(** [Number::toString(x)] *)
Definition NumberToString (x : float) : jsstring :=
  match Prim2SF x with
  | S754_nan => lit "NaN"
  | S754_zero _ => lit "0"
  | S754_infinity s => lit (if s then "-Infinity" else "Infinity")
  | S754_finite s m e =>
      (if s then lit "-" else []) ++ positive_to_string (Z.pos m) e
  end.

(** White space and line terminators, as [StringToNumber] strips them. *)
Definition is_white_space (c : N) : bool :=
  bool_decide (c ∈ [9; 10; 11; 12; 13; 32; 160; 5760; 8232; 8233; 8239; 8287;
                    12288; 65279]%N)
  || ((8192 <=? c) && (c <=? 8202))%N.

Fixpoint trim_left (s : jsstring) : jsstring :=
  match s with
  | c :: r => if is_white_space c then trim_left r else s
  | [] => []
  end.

Definition trim (s : jsstring) : jsstring :=
  reverse (trim_left (reverse (trim_left s))).

(** The value of a digit in a radix up to 16. *)
Definition digit (radix c : N) : option N :=
  (let d := if (48 <=? c) && (c <=? 57) then Some (c - 48)
            else if (97 <=? c) && (c <=? 102) then Some (c - 87)
            else if (65 <=? c) && (c <=? 70) then Some (c - 55)
            else None in
   match d with
   | Some d => if d <? radix then Some d else None
   | None => None
   end)%N.

(** The longest prefix of decimal digits, and the rest. *)
Fixpoint span_digits (s : jsstring) : jsstring * jsstring :=
  match s with
  | c :: r =>
      match digit 10 c with
      | Some _ => let (ds, rest) := span_digits r in (c :: ds, rest)
      | None => ([], s)
      end
  | [] => ([], [])
  end.

(** The number that a non-empty string of digits denotes. *)
Definition numeral (radix : N) (s : jsstring) : option Z :=
  match s with
  | [] => None
  | _ => foldl (λ acc c, a ← acc; d ← digit radix c; Some (Z.of_N radix * a + Z.of_N d))
               (Some 0) s
  end.

(** The double nearest to [m * 10^e10], ties to the even mantissa, with the
    sign [s]. *)
Definition nearest (s : bool) (m e10 : Z) : float :=
  if m =? 0 then SF2Prim (S754_zero s)
  else if 400 <? e10 then SF2Prim (S754_infinity s)
  else if e10 + Z.log2 m <? -1100 then SF2Prim (S754_zero s)
  else
    let v := scaled m 0 e10 in
    let t := Z.log2 v.1 - Z.log2 v.2 in
    let b := if frac_le (scaled 1 t 0) v then t else t - 1 in
    let e := Z.max (b - 52) (-1074) in
    let num := v.1 * 2 ^ Z.max 0 (- e) in
    let den := v.2 * 2 ^ Z.max 0 e in
    let q := num / den in
    let r := num mod den in
    let q := if (den <? 2 * r) || ((den =? 2 * r) && Z.odd q) then q + 1 else q in
    match q with
    | Z.pos p => if 971 <? e then SF2Prim (S754_infinity s)
                 else SF2Prim (S754_finite s p e)
    | _ => SF2Prim (S754_zero s)
    end.

(** [StrUnsignedDecimalLiteral]: [Infinity], or digits with an optional
    fraction and an optional exponent, at least one digit before the
    exponent. *)
Definition unsigned_decimal (s : bool) (t : jsstring) : float :=
  if decide (t = lit "Infinity") then SF2Prim (S754_infinity s)
  else
    let (ip, r1) := span_digits t in
    let '(dot, fp, r2) :=
      match r1 with
      | 46%N :: r => let (fp, r2) := span_digits r in (true, fp, r2)
      | _ => (false, [], r1)
      end in
    let exponent :=
      match r2 with
      | [] => Some 0
      | c :: r =>
          if bool_decide (c = 101%N ∨ c = 69%N) then
            match r with
            | 43%N :: ds => numeral 10 ds
            | 45%N :: ds => Z.opp <$> numeral 10 ds
            | ds => numeral 10 ds
            end
          else None
      end in
    match numeral 10 (ip ++ fp), exponent with
    | Some m, Some x => nearest s m (x - Z.of_nat (length fp))
    | _, _ => nan
    end.

(** [StringToNumber(s)]: white space is stripped; the empty string is [0];
    a literal in radix 2, 8 or 16 has no sign; anything that is not a
    literal is [NaN]. *)
Definition StringToNumber (s : jsstring) : float :=
  match trim s with
  | [] => zero
  | 48%N :: x :: ds =>
      let radix := if bool_decide (x = 120%N ∨ x = 88%N) then Some 16%N
                   else if bool_decide (x = 111%N ∨ x = 79%N) then Some 8%N
                   else if bool_decide (x = 98%N ∨ x = 66%N) then Some 2%N
                   else None in
      match radix with
      | Some radix =>
          match numeral radix ds with
          | Some m => nearest false m 0
          | None => nan
          end
      | None => unsigned_decimal false (48%N :: x :: ds)
      end
  | 43%N :: t => unsigned_decimal false t
  | 45%N :: t => unsigned_decimal true t
  | t => unsigned_decimal false t
  end.


(** ** JavaScript values *)

(** The values that [JSON.parse] produces, and [undefined]. An object lists
    its own properties; none of them is callable. *)
#[warnings="-register-all"]
Inductive value : Type :=
| Undefined
| Null
| Bool (b : bool)
| Num (x : float)
| Str (s : jsstring)
| Arr (xs : list value)
| Obj (fields : list (jsstring * value)).

(** What can be thrown, or be the reason of a rejected promise. *)
Inductive Exn : Type :=
| Thrown (v : value)                  (* [throw v], [reject(v)] *)
| TypeError                           (* [null[..]], or no primitive value *)
| InvalidStateError                   (* [ws.send] while the socket is connecting *)
| ERR_UNHANDLED_ERROR (context : value).   (* [emit("error", context)], nobody listening *)

#[local] Instance Exn_bind : MBind (sum Exn) :=
  λ A B f x, match x with inl e => inl e | inr a => f a end.

(** [!!v] *)
Definition ToBoolean (v : value) : bool :=
  match v with
  | Undefined | Null => false
  | Bool b => b
  | Num x => negb (PrimFloat.eqb x zero || is_nan x)
  | Str s => match s with [] => false | _ => true end
  | Arr _ | Obj _ => true
  end.

(** [a || b] *)
Definition js_or (a b : value) : value := if ToBoolean a then a else b.

(** [a === b] where [b] is handed to a listener: a payload out of
    [JSON.parse], or an event name. An array or object payload is a fresh
    reference, identical to nothing the caller held before. *)
Definition strict_equals (a b : value) : bool :=
  match a, b with
  | Undefined, Undefined => true
  | Null, Null => true
  | Bool x, Bool y => Bool.eqb x y
  | Num x, Num y => PrimFloat.eqb x y
  | Str x, Str y => bool_decide (x = y)
  | _, _ => false
  end.

(** Own property [k] of an object. *)
Fixpoint get {A : Type} (k : jsstring) (o : list (jsstring * A)) : option A :=
  match o with
  | [] => None
  | (k', x) :: r => if decide (k' = k) then Some x else get k r
  end.

(** [String(v)], as [+] with a string operand and property access apply
    it. An object is first turned into a primitive value through its
    [toString] and [valueOf]: an array joins its elements, an object without
    a property [toString] of its own inherits the one that answers
    [[object Object]], and one with a property [toString] of its own, which
    is not callable, has no primitive value. *)
Fixpoint ToString (v : value) : Exn + jsstring :=
  match v with
  | Undefined => inr (lit "undefined")
  | Null => inr (lit "null")
  | Bool b => inr (lit (if b then "true" else "false"))
  | Num x => inr (NumberToString x)
  | Str s => inr s
  | Arr xs =>
      (fix join (l : list value) : Exn + jsstring :=
         match l with
         | [] => inr []
         | x :: rest =>
             match (match x with Undefined | Null => inr [] | _ => ToString x end) with
             | inl e => inl e
             | inr elem =>
                 match rest with
                 | [] => inr elem
                 | _ :: _ =>
                     match join rest with
                     | inl e => inl e
                     | inr others => inr (elem ++ lit "," ++ others)
                     end
                 end
             end
         end) xs
  | Obj fields =>
      match get (lit "toString") fields with
      | Some _ => inl TypeError
      | None => inr (lit "[object Object]")
      end
  end.

(** [Number(v)] *)
Definition ToNumber (v : value) : Exn + float :=
  match v with
  | Undefined => inr nan
  | Null => inr zero
  | Bool b => inr (if b then one else zero)
  | Num x => inr x
  | Str s => inr (StringToNumber s)
  | Arr _ | Obj _ => s ← ToString v; inr (StringToNumber s)
  end.

(** [v >= 0] *)
Definition ge_zero (v : value) : Exn + bool :=
  x ← ToNumber v; inr (PrimFloat.leb zero x).

(** [v[0]] *)
Definition first (v : value) : Exn + value :=
  match v with
  | Undefined | Null => inl TypeError
  | Arr xs => inr (default Undefined (head xs))
  | Str (c :: _) => inr (Str [c])
  | Obj fields => inr (default Undefined (get (lit "0") fields))
  | _ => inr Undefined
  end.

(** ** Module state and the helper instance *)

(** What a [waitForResponse] listener closes over. *)
Record Waiter : Type := mkWaiter {
  w_id : jsstring;
  w_expectedResponse : value;
  w_repeating : bool
}.

(** State of the promise that [waitForResponse] returns. *)
Inductive Outcome : Type :=
| Pending
| Resolved (response : value)
| Rejected (reason : Exn).

Inductive ReadyState : Type := CONNECTING | OPEN | CLOSING | CLOSED.

(** [{id:id, q:url}], with [repeat: {freq:freq}] when it is set. *)
Record Message : Type := mkMessage {
  m_id : jsstring;
  m_q : jsstring;
  m_repeat : option value
}.

(** A parsed inbound message object; a property that is absent reads
    [Undefined]. *)
Record Reply : Type := mkReply {
  r_id : value;
  r_data : value;
  r_info : value;
  r_error : value
}.

(** Lines written with [console.log]. [JSON.stringify] is not spelled out:
    such a line keeps its prefix and the object that is serialised. *)
Inductive ConsoleLine : Type :=
| Text (s : jsstring)
| TextSent (s : jsstring) (m : Message)
| TextReceived (s : jsstring) (m : Reply)
| TextState (s : jsstring) (rs : ReadyState).

(** History of the socket: frames handed to [ws.send] while it is open and
    frames delivered to [ws.onmessage], oldest first. *)
Inductive Frame : Type :=
| Out (m : Message)
| In (m : Reply).

(** [eventEmitter] maps an event name to its listeners in registration
    order; a listener is named by the index of its closure in [waiters].
    [repeatingQueries] keeps its own properties in creation order. The
    warning that the emitter prints on the error stream past ten listeners
    of one name is not part of the state. *)
Record World : Type := mkWorld {
  logOutput : bool;
  console : list ConsoleLine;
  eventEmitter : gmap jsstring (list nat);
  waiters : list (Waiter * Outcome);
  ws : option ReadyState;
  traffic : list Frame;
  repeatingQueries : list (jsstring * Z)
}.

Definition set_console (f : list ConsoleLine → list ConsoleLine) (w : World) : World :=
  mkWorld (logOutput w) (f (console w)) (eventEmitter w) (waiters w) (ws w)
          (traffic w) (repeatingQueries w).

Definition set_eventEmitter (f : gmap jsstring (list nat) → gmap jsstring (list nat))
    (w : World) : World :=
  mkWorld (logOutput w) (console w) (f (eventEmitter w)) (waiters w) (ws w)
          (traffic w) (repeatingQueries w).

Definition set_waiters (f : list (Waiter * Outcome) → list (Waiter * Outcome))
    (w : World) : World :=
  mkWorld (logOutput w) (console w) (eventEmitter w) (f (waiters w)) (ws w)
          (traffic w) (repeatingQueries w).

Definition set_traffic (f : list Frame → list Frame) (w : World) : World :=
  mkWorld (logOutput w) (console w) (eventEmitter w) (waiters w) (ws w)
          (f (traffic w)) (repeatingQueries w).

Definition set_repeatingQueries (f : list (jsstring * Z) → list (jsstring * Z))
    (w : World) : World :=
  mkWorld (logOutput w) (console w) (eventEmitter w) (waiters w) (ws w)
          (traffic w) (f (repeatingQueries w)).

Definition console_log (l : ConsoleLine) : World → World :=
  set_console (λ c, c ++ [l]).

(** Outputs to console if logging is enabled. *)
Definition logToConsole (output : ConsoleLine) (w : World) : World :=
  if logOutput w then console_log output w else w.

Definition set_ws (o : option ReadyState) (w : World) : World :=
  mkWorld (logOutput w) (console w) (eventEmitter w) (waiters w) o
          (traffic w) (repeatingQueries w).

(** [this.url], from the environment variables [IP] and [PORT]. *)
Definition url (IP PORT : option jsstring) : jsstring :=
  lit "ws://" ++ default (lit "localhost") IP ++ lit ":"
  ++ default (lit "8342") PORT ++ lit "/ws".

(** The module just loaded and a helper just constructed: [debug] is
    [process.env.DEBUG === "true"]. *)
Definition constructor (debug : bool) (IP PORT : option jsstring) : World :=
  logToConsole (Text (lit "URL: " ++ url IP PORT)) (mkWorld debug [] ∅ [] None [] []).

(** [connect()] creates the socket; its promise resolves in [onopen]. *)
Definition connect (w : World) : World := set_ws (Some CONNECTING) w.
Definition onopen (w : World) : World := set_ws (Some OPEN) w.

(** ** The event emitter *)

Definition listeners (type : jsstring) (w : World) : list nat :=
  default [] (eventEmitter w !! type).

(** The listeners of all names together. *)
Definition count (m : gmap jsstring (list nat)) : nat :=
  map_fold (λ _ l n, (length l + n)%nat) 0%nat m.

Definition registrations (w : World) : nat := count (eventEmitter w).

(** [l] without the most recently added occurrence of [h]. *)
Fixpoint remove_last (h : nat) (l : list nat) : list nat :=
  match l with
  | [] => []
  | x :: r =>
      if decide (h ∈ r) then x :: remove_last h r
      else if decide (x = h) then r
      else x :: r
  end.

(** The table without the listener [h] of [type]. *)
Definition unregister (type : jsstring) (h : nat) : World → World :=
  set_eventEmitter
    (λ m, match remove_last h (default [] (m !! type)) with
          | [] => delete type m
          | l => <[type := l]> m
          end).

(** The table with the listener [h] added to [type]. *)
Definition register (type : jsstring) (h : nat) : World → World :=
  set_eventEmitter (λ m, <[type := default [] (m !! type) ++ [h]]> m).

Definition outcome (h : nat) (w : World) : option Outcome :=
  snd <$> waiters w !! h.

(** Settling a promise: only the first [resolve] or [reject] counts. *)
Definition settle (h : nat) (o : Outcome) (w : World) : World :=
  match waiters w !! h with
  | Some (wt, Pending) => set_waiters (λ ws, <[h := (wt, o)]> ws) w
  | _ => w
  end.

Definition newListenerEvent : jsstring := lit "newListener".
Definition removeListenerEvent : jsstring := lit "removeListener".

(** Calling listeners in turn; an exception ends the round. *)
Fixpoint call_in_turn (call : nat → World → option Exn * World) (hs : list nat)
    (w : World) : option Exn * World :=
  match hs with
  | [] => (None, w)
  | h :: hs =>
      match call h w with
      | (Some e, w) => (Some e, w)
      | (None, w) => call_in_turn call hs w
      end
  end.

(** The line that the listener logs. *)
Definition listener_line (response expectedResponse : value) (repeating : bool)
    : Exn + jsstring :=
  r ← ToString response;
  e ← ToString expectedResponse;
  inr (lit "waitForResponseListener: response=" ++ r ++ lit " expectedResponse=" ++ e
       ++ lit " repeating=" ++ lit (if repeating then "true" else "false")).

(** The reason of a rejection. *)
Definition mismatch (response expectedResponse : value) : Exn + jsstring :=
  r ← ToString response;
  e ← ToString expectedResponse;
  inr (lit "Returned response (" ++ r ++ lit ") does not match expected (" ++ e
       ++ lit ")").

(** [eventEmitter.removeListener(type, listener)]: when the listener was
    registered, the emitter announces the removal to the listeners of
    ["removeListener"]; [announce] is that emission. *)
Definition removeListener_with (announce : jsstring → World → option Exn * World)
    (type : jsstring) (h : nat) (w : World) : option Exn * World :=
  if decide (h ∈ listeners type w) then announce type (unregister type h w)
  else (None, w).

(** The listener that [waitForResponse] registers, run on a response. The
    line to log is built whether or not logging is enabled. *)
Definition listener_with (announce : jsstring → World → option Exn * World)
    (h : nat) (response : value) (w : World) : option Exn * World :=
  match waiters w !! h with
  | None => (None, w)
  | Some (mkWaiter id expectedResponse repeating, _) =>
      match listener_line response expectedResponse repeating with
      | inl e => (Some e, w)
      | inr line =>
          let w := logToConsole (Text line) w in
          if negb (ToBoolean expectedResponse) || strict_equals expectedResponse response
          then
            match removeListener_with announce id h w with
            | (Some e, w) => (Some e, w)
            | (None, w) => (None, settle h (Resolved response) w)
            end
          else if negb repeating
          then
            match removeListener_with announce id h w with
            | (Some e, w) => (Some e, w)
            | (None, w) =>
                match mismatch response expectedResponse with
                | inl e => (Some e, w)
                | inr reason => (None, settle h (Rejected (Thrown (Str reason))) w)
                end
            end
          else (None, w)
      end
  end.

(** The listeners that are registered for [type] when the call starts are
    run on [arg], oldest first. A listener that removes itself sets off an
    emission to the listeners of ["removeListener"], inside which the same
    can happen again; every such emission follows a removal, so the nesting
    is no deeper than [n], the number of registrations to start with. *)
Fixpoint emit_at (n : nat) (type : jsstring) (arg : value) (w : World)
    : option Exn * World :=
  match n with
  | O => (None, w)
  | S n =>
      call_in_turn
        (λ h, listener_with (λ type, emit_at n removeListenerEvent (Str type)) h arg)
        (listeners type w) w
  end.

(** [emit("removeListener", type, listener)] *)
Definition announce (type : jsstring) (w : World) : option Exn * World :=
  emit_at (registrations w) removeListenerEvent (Str type) w.

(** [eventEmitter.removeListener(type, listener)] *)
Definition removeListener : jsstring → nat → World → option Exn * World :=
  removeListener_with announce.

Definition listener : nat → value → World → option Exn * World :=
  listener_with announce.

Definition errorEvent : jsstring := lit "error".

(** [type === 'error'] *)
Definition is_error (type : value) : bool :=
  match type with
  | Str s => bool_decide (s = errorEvent)
  | _ => false
  end.

(** [eventEmitter.emit(type, arg)]: the event ["error"] is thrown when
    nobody listens to it. *)
Definition emit (type arg : value) (w : World) : option Exn * World :=
  if is_error type && bool_decide (listeners errorEvent w = [])
  then (Some (ERR_UNHANDLED_ERROR arg), w)
  else
    match ToString type with
    | inl e => (Some e, w)
    | inr key => emit_at (registrations w) key arg w
    end.

(** [eventEmitter.on(type, listener)]: the listeners of ["newListener"] are
    told before the listener is added. *)
Definition on (type : jsstring) (h : nat) (w : World) : option Exn * World :=
  match emit (Str newListenerEvent) (Str type) w with
  | (Some e, w) => (Some e, w)
  | (None, w) => (None, register type h w)
  end.

(** Waits for a response from the web socket: a new promise whose listener
    is registered under [id]. An exception in the executor rejects the
    promise. The promise is returned by its index. *)
Definition waitForResponse (id : jsstring) (expectedResponse : value)
    (repeating : bool) (w : World) : nat * World :=
  let h := length (waiters w) in
  let w := set_waiters
             (λ ws, ws ++ [(mkWaiter id expectedResponse repeating, Pending)]) w in
  match on id h w with
  | (Some e, w) => (h, settle h (Rejected e) w)
  | (None, w) => (h, w)
  end.

(** ** The registry of repeating queries *)

Definition protoName : jsstring := lit "__proto__".

(** Assignment to a property that is there, or new: an existing property
    keeps its place, a new one goes last. *)
Fixpoint define {A : Type} (k : jsstring) (x : A) (o : list (jsstring * A))
    : list (jsstring * A) :=
  match o with
  | [] => [(k, x)]
  | (k', y) :: r => if decide (k' = k) then (k, x) :: r else (k', y) :: define k x r
  end.

(** [o[k] = 1] on a plain object: the name [__proto__] is the accessor that
    the object inherits, whose setter ignores a number and creates no
    property. *)
Definition put (k : jsstring) (x : Z) (o : list (jsstring * Z)) : list (jsstring * Z) :=
  if decide (k = protoName) then o else define k x o.

(** [delete o[k]] *)
Definition remove {A : Type} (k : jsstring) (o : list (jsstring * A))
    : list (jsstring * A) :=
  filter (λ kv, kv.1 ≠ k) o.

(** A property name that is an array index: a decimal numeral without
    leading zero, below [2^32 - 1]. *)
Definition array_index (s : jsstring) : option Z :=
  match s with
  | [48%N] => Some 0
  | 48%N :: _ => None
  | _ => n ← numeral 10 s; if n <? 2 ^ 32 - 1 then Some n else None
  end.

Definition index_le (a b : Z * jsstring) : Prop := a.1 ≤ b.1.

#[local] Instance index_le_dec : RelDecision index_le.
Proof. intros a b. unfold index_le. apply _. Defined.

Definition indexed (k : jsstring) : option (Z * jsstring) :=
  (λ n, (n, k)) <$> array_index k.

(** The order in which [for (key in o)] visits the properties of [o]:
    array indices ascending, then the other names in creation order. *)
Definition for_in {A : Type} (o : list (jsstring * A)) : list jsstring :=
  (merge_sort index_le (omap indexed o.*1)).*2
  ++ filter (λ k, array_index k = None) o.*1.

(** Validates that a repeating query with the specified id is not already in
    use. Throws an exception if the id is already in use. The test
    [this.repeatingQueries[id] == 1] holds of an own property only: what a
    plain object inherits is a function or an object, never [1]. *)
Definition addRepeatingQueryId (id : jsstring) (w : World) : option Exn * World :=
  if decide (get id (repeatingQueries w) = Some 1)
  then (Some (Thrown (Str (lit "Repeating query ID (" ++ id
                           ++ lit ") is already being used"))), w)
  else (None, set_repeatingQueries (put id 1) w).

(** ** Sending and receiving *)

Definition prefixEvent : jsstring := lit "event_".
Definition prefixQuery : jsstring := lit "/q/".
Definition prefixBind : jsstring := lit "/bind/".

(** [ws.send(data)]: an exception while connecting, transmission while
    open, and nothing once the socket is closing or closed. *)
Definition ws_send (rs : ReadyState) (msg : Message) (w : World) : option Exn * World :=
  match rs with
  | CONNECTING => (Some InvalidStateError, w)
  | OPEN => (None, set_traffic (λ t, t ++ [Out msg]) w)
  | CLOSING | CLOSED => (None, w)
  end.

(** Sends a message to the web socket and waits for the response to its id.
    An omitted [freq] is [-1] and an omitted [expectedResponse] is
    [undefined]; an omitted argument is written [Undefined]. The result is
    the promise of [waitForResponse], or the exception raised on the way. *)
Definition send (id url : jsstring) (freq expectedResponse : value) (w : World)
    : (Exn + nat) * World :=
  let freq := match freq with Undefined => Num (-1)%float | _ => freq end in
  match ge_zero freq with
  | inl e => (inl e, w)
  | inr repeat =>
      let msg := mkMessage id url (if repeat then Some freq else None) in
      let w := logToConsole (TextSent (lit "Sending message: ") msg) w in
      match ws w with
      | None => (inl TypeError, w)
      | Some rs =>
          let w := console_log (TextState (lit "Ready state ") rs) w in
          match ws_send rs msg w with
          | (Some e, w) => (inl e, w)
          | (None, w) =>
              let (h, w) := waitForResponse id expectedResponse false w in
              (inr h, w)
          end
      end
  end.

(** The line that reports the error of a message. *)
Definition error_line (id error : value) : Exn + jsstring :=
  i ← ToString id;
  e ← ToString error;
  inr (lit "Message has an error: {" ++ i ++ lit "} " ++ e).

(** [ws.onmessage], as installed by [connect]. An exception leaves the
    handler; nothing in the module catches it. *)
Definition onmessage (msg : Reply) (w : World) : option Exn * World :=
  let w := set_traffic (λ t, t ++ [In msg]) w in
  let w := logToConsole (TextReceived (lit "Received message: ") msg) w in
  let id := r_id msg in
  let reported :=
    if ToBoolean (r_error msg)
    then match error_line id (r_error msg) with
         | inl e => (Some e, w)
         | inr line => (None, console_log (Text line) w)
         end
    else (None, w) in
  match reported with
  | (Some e, w) => (Some e, w)
  | (None, w) => emit id (js_or (r_info msg) (r_data msg)) w
  end.

(** ** The asynchronous methods

    A call runs until its first [await] and is then suspended; what is left
    of each method after the [await] is a continuation. A method that awaits
    another method's call is suspended with that call's continuations in
    front of its own. No method catches exceptions. *)

Inductive Cont : Type :=
| query_k                       (* [(await send(..))[0]] *)
| queryAll_k                    (* [return await send(..)] *)
| repeatQuery_k                 (* [await send(..)] *)
| removeQuery_k (id : jsstring)   (* [await send(..); delete this.repeatingQueries[id]] *)
| cleanUp_k (keys : list jsstring)  (* the keys the loop has still to visit *)
| bindToEvent_sent (id url : jsstring) (polling : bool)
| bindToEvent_slept (id url : jsstring) (polling bound : bool)
| waitForEvent_k.               (* [return await waitForResponse(..)] *)

Inductive Awaited : Type :=
| Response (h : nat)      (* a promise of [waitForResponse] *)
| Timeout (ms : Z).       (* the promise of [sleep(ms)] *)

Inductive Step : Type :=
| Return (v : value)
| Throw (e : Exn)
| Await (a : Awaited) (ks : list Cont).

(** [await] of the promise [h]: a promise that its executor has rejected
    throws at once. *)
Definition await (k : Cont) (h : nat) (w : World) : Step * World :=
  match outcome h w with
  | Some (Rejected e) => (Throw e, w)
  | _ => (Await (Response h) [k], w)
  end.

Definition awaiting (k : Cont) (r : (Exn + nat) * World) : Step * World :=
  match r with
  | (inl e, w) => (Throw e, w)
  | (inr h, w) => await k h w
  end.

(** Send a query and will wait for any response and return first result. *)
Definition query (id url : jsstring) (w : World) : Step * World :=
  awaiting query_k (send id (prefixQuery ++ url) Undefined Undefined w).

(** Send a query and will wait for any response and return all results. *)
Definition queryAll (id url : jsstring) (w : World) : Step * World :=
  awaiting queryAll_k (send id (prefixQuery ++ url) Undefined Undefined w).

(** Send a query that is repeating and validates the response. *)
Definition repeatQuery (id url : jsstring) (freq : value) (w : World) : Step * World :=
  match addRepeatingQueryId id w with
  | (Some e, w) => (Throw e, w)
  | (None, w) =>
      awaiting repeatQuery_k (send id (prefixQuery ++ url) freq (Str (lit "repeating")) w)
  end.

(** Wait for the expected response to be returned for a repeating query. *)
Definition waitForRepeatResponse (id : jsstring) (expectedResponse : value) (w : World)
    : nat * World :=
  waitForResponse id expectedResponse true w.

(** When a repeating query is no longer required this will stop it from
    returning any more responses. *)
Definition removeQuery (id : jsstring) (w : World) : Step * World :=
  awaiting (removeQuery_k id)
    (send id (lit "/socket.stop(" ++ id ++ lit ")") (Num (-1)%float)
          (Str (lit "stopped")) w).

(** The loop of [cleanUpRepeatingQueries] over the keys still to visit; a
    key deleted in the meantime is skipped. The loop is suspended in the
    [removeQuery] call it awaits. *)
Fixpoint cleanUp_loop (keys : list jsstring) (w : World) : Step * World :=
  match keys with
  | [] => (Return Undefined, w)
  | key :: rest =>
      if decide (is_Some (get key (repeatingQueries w))) then
        match removeQuery key w with
        | (Await a ks, w) => (Await a (ks ++ [cleanUp_k rest]), w)
        | (Throw e, w) => (Throw e, w)
        | (Return _, w) => cleanUp_loop rest w   (* nothing to wait for *)
        end
      else cleanUp_loop rest w
  end.

(** Stops all repeating queries. *)
Definition cleanUpRepeatingQueries (w : World) : Step * World :=
  cleanUp_loop (for_in (repeatingQueries w)) w.

(** One pass of the [do .. while] body of [bindToEvent], up to its first
    [await]. *)
Definition bindToEvent_body (id url : jsstring) (polling : bool) (w : World)
    : Step * World :=
  awaiting (bindToEvent_sent id url polling)
    (send (prefixEvent ++ id) (prefixBind ++ url)
          (if negb polling then Str (lit "bound") else Undefined) Undefined w).

(** [while (polling && !bound)] *)
Definition bindToEvent_while (id url : jsstring) (polling bound : bool) (w : World)
    : Step * World :=
  if polling && negb bound then bindToEvent_body id url polling w
  else (Return Undefined, w).

(** Binds to an event. *)
Definition bindToEvent (id url : jsstring) (polling : bool) (w : World) : Step * World :=
  bindToEvent_body id url polling w.

(** Wait for an expected response for a particular event id. *)
Definition waitForEvent (id : jsstring) (expectedResponse : value) (w : World)
    : Step * World :=
  let (h, w) := waitForResponse (prefixEvent ++ id) expectedResponse true w in
  await waitForEvent_k h w.

(** The code after an [await], run on the awaited value. *)
Definition continue (k : Cont) (v : value) (w : World) : Step * World :=
  match k with
  | query_k =>
      match first v with
      | inl e => (Throw e, w)
      | inr x => (Return x, w)
      end
  | queryAll_k => (Return v, w)
  | repeatQuery_k => (Return Undefined, w)
  | removeQuery_k id => (Return Undefined, set_repeatingQueries (remove id) w)
  | cleanUp_k rest => cleanUp_loop rest w
  | bindToEvent_sent id url polling =>
      let bound := strict_equals v (Str (lit "bound")) in
      if negb bound
      then (Await (Timeout 1000) [bindToEvent_slept id url polling bound], w)
      else bindToEvent_while id url polling bound w
  | bindToEvent_slept id url polling bound => bindToEvent_while id url polling bound w
  | waitForEvent_k => (Return v, w)
  end.

(** A suspended call resumes with the awaited value: its innermost method
    runs on, and what it returns is the value its caller awaited. *)
Fixpoint resume (ks : list Cont) (v : value) (w : World) : Step * World :=
  match ks with
  | [] => (Return v, w)
  | k :: rest =>
      match continue k v w with
      | (Return v', w') => resume rest v' w'
      | (Throw e, w') => (Throw e, w')
      | (Await a ks', w') => (Await a (ks' ++ rest), w')
      end
  end.

(** ** The event loop, seen from one call in flight *)

Inductive Event : Type :=
| Delivered (msg : Reply)   (* the socket delivers a message *)
| TimerFired.               (* the pending [setTimeout] fires *)

(** After a message: if the promise the call awaits is settled, the call
    runs on; a rejection is thrown at the [await]. *)
Definition wake (s : Step) (w : World) : Step * World :=
  match s with
  | Await (Response h) ks =>
      match outcome h w with
      | Some (Resolved v) => resume ks v w
      | Some (Rejected e) => (Throw e, w)
      | _ => (s, w)
      end
  | _ => (s, w)
  end.

(** An exception that leaves [onmessage] is not the call's: the call sees
    the state that the handler left. *)
Definition handle (e : Event) (sw : Step * World) : Step * World :=
  let (s, w) := sw in
  match e with
  | Delivered msg => wake s (onmessage msg w).2
  | TimerFired =>
      match s with
      | Await (Timeout _) ks => resume ks Undefined w
      | _ => (s, w)
      end
  end.

Definition run (es : list Event) (sw : Step * World) : Step * World :=
  foldl (λ sw e, handle e sw) sw es.

(** ** The socket state, and closing a session *)

(** [ready()]: [this.ws.readyState === this.ws.OPEN]. *)
Definition ready (w : World) : Exn + bool :=
  match ws w with
  | None => inl TypeError
  | Some OPEN => inr true
  | Some _ => inr false
  end.

(** [close()]: [this.ws.close()] starts the closing handshake of a socket
    that is connecting or open, and does nothing to one that is closing or
    closed. *)
Definition close (w : World) : option Exn * World :=
  match ws w with
  | None => (Some TypeError, w)
  | Some (CONNECTING | OPEN) => (None, set_ws (Some CLOSING) w)
  | Some (CLOSING | CLOSED) => (None, w)
  end.

(** The [disconnect] helper of the tests,
    [await wsh.cleanUpRepeatingQueries(); await wsh.close();], from the
    state [sw] its first [await] is in, with the events still to come: once
    the clean-up has returned the socket is closed, and an exception of the
    clean-up ends the helper. *)
Fixpoint disconnect_from (es : list Event) (sw : Step * World) : Step * World :=
  match sw with
  | (Return _, w) =>
      match close w with
      | (Some e, w) => (Throw e, w)
      | (None, w) => (Return Undefined, w)
      end
  | (Throw e, w) => (Throw e, w)
  | (Await _ _, _) =>
      match es with
      | [] => sw
      | e :: es => disconnect_from es (handle e sw)
      end
  end.

Definition disconnect (es : list Event) (w : World) : Step * World :=
  disconnect_from es (cleanUpRepeatingQueries w).

(** ** Notions used to state the properties *)

(** The value can be turned into a string. *)
Definition printable (v : value) : bool :=
  match ToString v with inr _ => true | inl _ => false end.

(** The string of a printable value. *)
Definition print (v : value) : jsstring :=
  match ToString v with inr s => s | inl _ => [] end.

(** The diagnostic of a one-shot waiter that expected [expected], both
    values being printable. *)
Definition diagnostic (response expected : value) : jsstring :=
  lit "Returned response (" ++ print response
  ++ lit ") does not match expected (" ++ print expected ++ lit ")".

(** What the listener of [wt] decides on a response. *)
Definition verdict (wt : Waiter) (response : value) : Outcome :=
  if negb (ToBoolean (w_expectedResponse wt))
     || strict_equals (w_expectedResponse wt) response
  then Resolved response
  else if negb (w_repeating wt)
  then Rejected (Thrown (Str (diagnostic response (w_expectedResponse wt))))
  else Pending.

Definition settles (wt : Waiter) (response : value) : bool :=
  match verdict wt response with Pending => false | _ => true end.

(** The line that the listener of [wt] logs, the values being printable. *)
Definition logged (wt : Waiter) (response : value) : ConsoleLine :=
  Text (lit "waitForResponseListener: response=" ++ print response
        ++ lit " expectedResponse=" ++ print (w_expectedResponse wt)
        ++ lit " repeating=" ++ lit (if w_repeating wt then "true" else "false")).

(** The table without the listener [h] of [type], if it is there. *)
Definition drop (type : jsstring) (h : nat) (w : World) : World :=
  if decide (h ∈ listeners type w) then unregister type h w else w.

(** What the listener [h] does to the state on a response when nothing
    throws and nobody is told of a removal. *)
Definition answer (h : nat) (response : value) (w : World) : World :=
  match waiters w !! h with
  | None => w
  | Some (wt, _) =>
      let w := logToConsole (logged wt response) w in
      if settles wt response
      then settle h (verdict wt response) (drop (w_id wt) h w)
      else w
  end.

(** The listeners [hs] answering in turn. *)
Definition deliver (hs : list nat) (arg : value) (w : World) : World :=
  foldl (λ w h, answer h arg w) w hs.

(** [w'] is a later state of [w]: every promise of [w] is still there with
    the same closure, and a settled one has kept its outcome. *)
Definition evolves (w w' : World) : Prop :=
  ∀ h wt o, waiters w !! h = Some (wt, o) →
    ∃ o', waiters w' !! h = Some (wt, o') ∧ (o ≠ Pending → o' = o).

(** Every listener is registered at most once, under the id its promise
    was created for. *)
Definition consistent (w : World) : Prop :=
  ∀ id, NoDup (listeners id w)
        ∧ ∀ h, h ∈ listeners id w →
            ∃ wt o, waiters w !! h = Some (wt, o) ∧ w_id wt = id.

(** The expected value of every waiter can be turned into a string. *)
Definition polite (w : World) : Prop :=
  ∀ h wt o, waiters w !! h = Some (wt, o) → printable (w_expectedResponse wt) = true.

(** Nobody waits under the names of the emitter's own events. *)
Definition quiet (w : World) : Prop :=
  listeners newListenerEvent w = [] ∧ listeners removeListenerEvent w = [].

Definition orderly (w : World) : Prop := consistent w ∧ polite w ∧ quiet w.

(** Removals caused by an emission to [type] are announced to nobody:
    nobody listens to ["removeListener"], or [type] is that name and its one
    listener is the only one that can be removed. *)
Definition unheard (type : jsstring) (w : World) : Prop :=
  listeners removeListenerEvent w = []
  ∨ (type = removeListenerEvent
     ∧ ∃ h wt o, listeners removeListenerEvent w = [h]
                 ∧ waiters w !! h = Some (wt, o) ∧ w_id wt = removeListenerEvent).

(** The listener [h] of the waiter [wt] is registered under [type], its
    promise is pending, and an emission to [type] runs without exception or
    announcement. *)
Definition waiting (type : jsstring) (h : nat) (wt : Waiter) (w : World) : Prop :=
  consistent w ∧ polite w ∧ unheard type w
  ∧ waiters w !! h = Some (wt, Pending) ∧ h ∈ listeners type w.

(** [ann] and [ann'] agree on states with at most [n] registrations, and
    add none. *)
Definition agree (n : nat) (ann ann' : jsstring → World → option Exn * World) : Prop :=
  ∀ type w, (registrations w ≤ n)%nat →
    ann type w = ann' type w ∧ (registrations (ann type w).2 ≤ registrations w)%nat.

(** [ann] tells nobody when nobody listens to ["removeListener"]. *)
Definition hushed (ann : jsstring → World → option Exn * World) : Prop :=
  ∀ type w, listeners removeListenerEvent w = [] → ann type w = (None, w).

(** The primitive state changes of the module; [P] restricts the ids whose
    registry entry may be deleted. *)
Inductive prim (P : jsstring → Prop) : World → World → Prop :=
| prim_console f w : prim P w (set_console f w)
| prim_traffic f w : prim P w (set_traffic f w)
| prim_put id w : prim P w (set_repeatingQueries (put id 1) w)
| prim_remove id w : P id → prim P w (set_repeatingQueries (remove id) w)
| prim_promise wt w : prim P w (set_waiters (λ ws, ws ++ [(wt, Pending)]) w)
| prim_register id h w : prim P w (register id h w)
| prim_unregister id h w : prim P w (unregister id h w)
| prim_settle h o w : prim P w (settle h o w).

Definition steps (P : jsstring → Prop) : relation World := rtc (prim P).

Inductive Call : Type :=
| call_query (id url : jsstring)
| call_queryAll (id url : jsstring)
| call_repeatQuery (id url : jsstring) (freq : value)
| call_waitForRepeatResponse (id : jsstring) (expectedResponse : value)
| call_removeQuery (id : jsstring)
| call_cleanUpRepeatingQueries
| call_bindToEvent (id url : jsstring) (polling : bool)
| call_waitForEvent (id : jsstring) (expectedResponse : value).

(** The state after the call has run to its first [await]. *)
Definition invoke (c : Call) (w : World) : World :=
  match c with
  | call_query id url => (query id url w).2
  | call_queryAll id url => (queryAll id url w).2
  | call_repeatQuery id url freq => (repeatQuery id url freq w).2
  | call_waitForRepeatResponse id e => (waitForRepeatResponse id e w).2
  | call_removeQuery id => (removeQuery id w).2
  | call_cleanUpRepeatingQueries => (cleanUpRepeatingQueries w).2
  | call_bindToEvent id url polling => (bindToEvent id url polling w).2
  | call_waitForEvent id e => (waitForEvent id e w).2
  end.

(** Anything that can happen to the module: the emitter is used directly, a
    message arrives, a method is called, or a suspended call runs on. An
    exception ends the activity and leaves the state it was thrown in. *)
Inductive Activity : Type :=
| Emits (type arg : value)
| Waits (id : jsstring) (expectedResponse : value) (repeating : bool)
| Receives (msg : Reply)
| Invokes (c : Call)
| Resumes (ks : list Cont) (v : value).

Definition act (a : Activity) (w : World) : World :=
  match a with
  | Emits type arg => (emit type arg w).2
  | Waits id e rep => (waitForResponse id e rep w).2
  | Receives msg => (onmessage msg w).2
  | Invokes c => invoke c w
  | Resumes ks v => (resume ks v w).2
  end.

Definition perform (acts : list Activity) (w : World) : World :=
  foldl (λ w a, act a w) w acts.

(** The activity runs [removeQuery(id)] past its [await]. *)
Definition completes_removeQuery (id : jsstring) (a : Activity) : Prop :=
  match a with
  | Resumes ks _ => removeQuery_k id ∈ ks
  | _ => False
  end.


(** Two states with the same listener table and the same promises. *)
Definition same_correlator (w w' : World) : Prop :=
  eventEmitter w' = eventEmitter w ∧ waiters w' = waiters w.

(** The payload that [onmessage] hands to the listeners. *)
Definition payload (msg : Reply) : value := js_or (r_info msg) (r_data msg).




(** The frame that [bindToEvent(id, url)] sends. *)
Definition bind (id url : jsstring) : Message :=
  mkMessage (prefixEvent ++ id) (prefixBind ++ url) None.

(** A helper just constructed and connected, logging disabled. *)
Definition session : World := onopen (connect (constructor false None None)).
(** * Properties *)

(** Case analysis on every condition the goal branches on. *)
Ltac case_conditions :=
  repeat match goal with
         | |- context [if ?b then _ else _] => destruct b; simpl
         end.

(** Case analysis on everything the goal matches on. *)
Ltac state :=
  repeat first
    [ progress simpl
    | match goal with
      | |- context [match ?x with _ => _ end] => destruct x eqn:?
      end ];
  try done.

(** ** The listener table *)

Section remove_last.
Implicit Types (x y : nat) (l : list nat).

Lemma remove_last_sublist x l : remove_last x l `sublist_of` l.
Proof.
  induction l as [|a l IH]; simpl; [done|].
  repeat case_decide; subst.
  - by apply sublist_skip.
  - by apply sublist_cons.
  - done.
Qed.

Lemma elem_of_remove_last_ne x y l : y ≠ x → y ∈ remove_last x l ↔ y ∈ l.
Proof.
  intros Hne. induction l as [|a l IH]; simpl; [done|].
  repeat case_decide; subst; rewrite ?elem_of_cons, ?IH; naive_solver.
Qed.

Lemma remove_last_NoDup x l : NoDup l → x ∉ remove_last x l.
Proof.
  induction 1 as [|a l Ha Hl IH]; simpl; [apply not_elem_of_nil|].
  repeat case_decide; subst; rewrite ?elem_of_cons; naive_solver.
Qed.

Lemma remove_last_snoc x l : remove_last x (l ++ [x]) = l.
Proof.
  induction l as [|a l IH]; simpl.
  - destruct (decide (x ∈ [])) as [H|_]; [by apply elem_of_nil in H|].
    by destruct (decide (x = x)).
  - rewrite IH. destruct (decide (x ∈ l ++ [x])) as [_|H]; [done|].
    exfalso. apply H, elem_of_app. right. by apply list_elem_of_singleton.
Qed.
End remove_last.

Lemma listeners_unregister id' id x w :
  listeners id' (unregister id x w)
  = if decide (id' = id) then remove_last x (listeners id w) else listeners id' w.
Proof.
  unfold unregister, listeners. simpl.
  destruct (remove_last x (default [] (eventEmitter w !! id))) eqn:E; case_decide; subst;
    rewrite ?lookup_delete_eq, ?lookup_delete_ne, ?lookup_insert_eq, ?lookup_insert_ne by done;
    done.
Qed.

Lemma remove_last_notin h l : h ∉ l → remove_last h l = l.
Proof.
  induction l as [|x l IH]; simpl; [done|]. intros Hh.
  apply not_elem_of_cons in Hh as [Hne Hh].
  rewrite decide_False by done. by rewrite decide_False.
Qed.

Lemma listeners_drop id' id x w :
  listeners id' (drop id x w)
  = if decide (id' = id) then remove_last x (listeners id w) else listeners id' w.
Proof.
  unfold drop. case_decide as Hx.
  - apply listeners_unregister.
  - case_decide; [|done]. subst. by rewrite remove_last_notin.
Qed.

Lemma listeners_register id' id h w :
  listeners id' (register id h w)
  = if decide (id' = id) then listeners id w ++ [h] else listeners id' w.
Proof.
  unfold register, listeners. simpl.
  case_decide; subst; rewrite ?lookup_insert_eq, ?lookup_insert_ne by done; done.
Qed.

Lemma waiters_logToConsole l w : waiters (logToConsole l w) = waiters w.
Proof. unfold logToConsole. by destruct (logOutput w). Qed.

Lemma waiters_drop id h w : waiters (drop id h w) = waiters w.
Proof. unfold drop. by case_decide. Qed.

Lemma answer_waiters h v w :
  waiters (answer h v w)
  = match waiters w !! h with
    | Some (wt, Pending) =>
        if settles wt v then <[h := (wt, verdict wt v)]> (waiters w) else waiters w
    | _ => waiters w
    end.
Proof.
  unfold answer. destruct (waiters w !! h) as [[wt o]|] eqn:Hh; [|done].
  destruct (settles wt v); [|by rewrite waiters_logToConsole; destruct o].
  unfold settle. rewrite waiters_drop, waiters_logToConsole, Hh.
  destruct o; simpl; by rewrite ?waiters_drop, ?waiters_logToConsole.
Qed.

Lemma listeners_logToConsole id l w : listeners id (logToConsole l w) = listeners id w.
Proof. unfold logToConsole. by destruct (logOutput w). Qed.

Lemma listeners_settle id h o w : listeners id (settle h o w) = listeners id w.
Proof. unfold settle. by destruct (waiters w !! h) as [[? []]|]. Qed.

Lemma answer_listeners id h v w :
  listeners id (answer h v w)
  = match waiters w !! h with
    | Some (wt, _) =>
        if settles wt v && bool_decide (id = w_id wt)
        then remove_last h (listeners id w) else listeners id w
    | None => listeners id w
    end.
Proof.
  unfold answer, settles, verdict.
  destruct (waiters w !! h) as [[[id0 e rep] o]|] eqn:Hh; [|done]. simpl.
  destruct (negb (ToBoolean e) || strict_equals e v), (negb rep); simpl;
    rewrite ?listeners_settle, ?listeners_drop, ?listeners_logToConsole;
    try done; case_bool_decide; case_decide; subst; done.
Qed.

Lemma answer_others h v w :
  logOutput (answer h v w) = logOutput w
  ∧ ws (answer h v w) = ws w
  ∧ traffic (answer h v w) = traffic w
  ∧ repeatingQueries (answer h v w) = repeatingQueries w.
Proof.
  unfold answer, settle, drop, unregister, logToConsole. by state.
Qed.

(** ** Promises only move forward *)

#[local] Instance evolves_refl : Reflexive evolves.
Proof. intros w h wt o H. eauto. Qed.

#[local] Instance evolves_trans : Transitive evolves.
Proof.
  intros w1 w2 w3 H12 H23 h wt o H.
  destruct (H12 _ _ _ H) as (o2 & H2 & Ho2).
  destruct (H23 _ _ _ H2) as (o3 & H3 & Ho3).
  exists o3. split; [done|]. intros Ho. rewrite <- (Ho2 Ho). apply Ho3.
  by rewrite (Ho2 Ho).
Qed.

Lemma evolves_same w w' : waiters w' = waiters w → evolves w w'.
Proof. intros E h wt o H. rewrite E. eauto. Qed.

Lemma evolves_outcome w w' h o :
  evolves w w' → outcome h w = Some o → o ≠ Pending → outcome h w' = Some o.
Proof.
  unfold outcome. intros Hev Hh Ho.
  destruct (waiters w !! h) as [[wt o0]|] eqn:E; simplify_eq/=.
  destruct (Hev _ _ _ E) as (o' & -> & Ho'). simpl. by rewrite Ho'.
Qed.

Lemma answer_lookup_ne x h v w :
  x ≠ h → waiters (answer x v w) !! h = waiters w !! h.
Proof.
  intros Hne. rewrite answer_waiters.
  destruct (waiters w !! x) as [[wt []]|]; try done.
  destruct (settles wt v); [|done]. by apply list_lookup_insert_ne.
Qed.

Lemma answer_lookup_self h v w wt :
  waiters w !! h = Some (wt, Pending) →
  waiters (answer h v w) !! h = Some (wt, verdict wt v).
Proof.
  intros Hh. rewrite answer_waiters, Hh. unfold settles.
  destruct (verdict wt v) eqn:Ev; try done;
    apply list_lookup_insert_eq; by eapply lookup_lt_Some.
Qed.

Lemma answer_length x v w : length (waiters (answer x v w)) = length (waiters w).
Proof.
  rewrite answer_waiters.
  destruct (waiters w !! x) as [[wt []]|]; try done.
  destruct (settles wt v); [|done]. apply length_insert.
Qed.

Lemma answer_evolves x v w : evolves w (answer x v w).
Proof.
  intros h wt o Hh. destruct (decide (x = h)) as [->|Hne].
  - destruct o.
    + rewrite (answer_lookup_self _ _ _ _ Hh). eexists. by split.
    + rewrite answer_waiters, Hh. simpl. rewrite Hh. eauto.
    + rewrite answer_waiters, Hh. simpl. rewrite Hh. eauto.
  - rewrite answer_lookup_ne by done. eauto.
Qed.

(** ** Consistent worlds *)

Lemma answer_sublist id x v w : listeners id (answer x v w) `sublist_of` listeners id w.
Proof.
  rewrite answer_listeners.
  destruct (waiters w !! x) as [[wt o]|]; [|done].
  destruct (settles wt v && bool_decide (id = w_id wt)); [|done].
  apply remove_last_sublist.
Qed.

Lemma answer_consistent x v w : consistent w → consistent (answer x v w).
Proof.
  intros Hw id. destruct (Hw id) as [Hnd Hlt]. split.
  - eapply sublist_NoDup; [done|apply answer_sublist].
  - intros h Hh. destruct (Hlt h) as (wt & o & Hl & Hid).
    { eapply elem_of_sublist; [apply Hh|apply answer_sublist]. }
    destruct (answer_evolves x v w _ _ _ Hl) as (o' & Hl' & _). eauto.
Qed.

Lemma answer_elem_of_ne id x h v w :
  x ≠ h → h ∈ listeners id (answer x v w) ↔ h ∈ listeners id w.
Proof.
  intros Hne. rewrite answer_listeners.
  destruct (waiters w !! x) as [[wt o]|]; [|done].
  destruct (settles wt v && bool_decide (id = w_id wt)); [|done].
  by apply elem_of_remove_last_ne.
Qed.

(** ** Running the listeners of one [emit] *)

Lemma deliver_evolves hs v w : evolves w (deliver hs v w).
Proof.
  revert w. induction hs as [|x hs IH]; intros w; simpl; [done|].
  etrans; [apply (answer_evolves x v)|apply IH].
Qed.

Lemma deliver_consistent hs v w : consistent w → consistent (deliver hs v w).
Proof.
  revert w. induction hs as [|x hs IH]; intros w Hw; simpl; [done|].
  by apply IH, answer_consistent.
Qed.

Lemma deliver_others hs v w :
  logOutput (deliver hs v w) = logOutput w
  ∧ ws (deliver hs v w) = ws w
  ∧ traffic (deliver hs v w) = traffic w
  ∧ repeatingQueries (deliver hs v w) = repeatingQueries w.
Proof.
  revert w. induction hs as [|x hs IH]; intros w; simpl; [done|].
  destruct (IH (answer x v w)) as (-> & -> & -> & ->). apply answer_others.
Qed.

Lemma deliver_sublist id hs v w :
  listeners id (deliver hs v w) `sublist_of` listeners id w.
Proof.
  revert w. induction hs as [|x hs IH]; intros w; simpl; [done|].
  etrans; [apply IH|apply answer_sublist].
Qed.

Lemma deliver_lookup_notin hs h v w :
  h ∉ hs → waiters (deliver hs v w) !! h = waiters w !! h.
Proof.
  revert w. induction hs as [|x hs IH]; intros w Hh; simpl; [done|].
  apply not_elem_of_cons in Hh as [Hne Hh].
  rewrite IH by done. by apply answer_lookup_ne.
Qed.

(** A pending promise whose listener is run gets the answer's verdict. *)
Lemma deliver_lookup hs h v w wt :
  waiters w !! h = Some (wt, Pending) → h ∈ hs →
  waiters (deliver hs v w) !! h = Some (wt, verdict wt v).
Proof.
  revert w. induction hs as [|x hs IH]; intros w Hh Hin; simpl.
  { by apply elem_of_nil in Hin. }
  destruct (decide (x = h)) as [->|Hne].
  - pose proof (answer_lookup_self _ v _ _ Hh) as Hself.
    assert (verdict wt v = Pending ∨ verdict wt v ≠ Pending) as [Ev|Ev]
      by (destruct (verdict wt v); eauto).
    + rewrite Ev in Hself. destruct (decide (h ∈ hs)) as [Hin'|Hin'].
      * by apply IH.
      * rewrite deliver_lookup_notin by done. by rewrite Hself, Ev.
    + destruct (deliver_evolves hs v _ _ _ _ Hself) as (o' & -> & Ho').
      by rewrite (Ho' Ev).
  - apply IH.
    + by rewrite answer_lookup_ne.
    + apply elem_of_cons in Hin as [->|]; done.
Qed.

(** A listener that does not settle stays registered. *)
Lemma deliver_keeps id hs h v w wt o :
  waiters w !! h = Some (wt, o) → settles wt v = false →
  h ∈ listeners id w → h ∈ listeners id (deliver hs v w).
Proof.
  revert w o. induction hs as [|x hs IH]; intros w o Hh Hs Hin; simpl; [done|].
  destruct (answer_evolves x v w _ _ _ Hh) as (o' & Hh' & _).
  eapply IH; [apply Hh'|done|].
  rewrite answer_listeners.
  destruct (waiters w !! x) as [[wt' o'']|] eqn:Ex; [|done].
  destruct (settles wt' v && bool_decide (id = w_id wt')) eqn:Eb; [|done].
  apply elem_of_remove_last_ne; [|done].
  intros ->. rewrite Hh in Ex. simplify_eq. by rewrite Hs in Eb.
Qed.

(** A pending listener that settles is registered nowhere afterwards. *)
Lemma deliver_deregisters hs h v w wt :
  consistent w → waiters w !! h = Some (wt, Pending) → settles wt v = true →
  h ∈ hs → (∀ id, id ≠ w_id wt → h ∉ listeners id w) →
  ∀ id, h ∉ listeners id (deliver hs v w).
Proof.
  revert w. induction hs as [|x hs IH]; intros w Hw Hh Hs Hin Hother id; simpl.
  { by apply elem_of_nil in Hin. }
  destruct (decide (x = h)) as [->|Hne].
  - intros Hid. eapply elem_of_sublist in Hid; [|apply deliver_sublist].
    rewrite answer_listeners, Hh, Hs in Hid. simpl in Hid.
    case_bool_decide as Eid.
    + by apply remove_last_NoDup in Hid; [|apply Hw].
    + by apply Hother in Hid.
  - apply IH.
    + by apply answer_consistent.
    + by rewrite answer_lookup_ne.
    + done.
    + apply elem_of_cons in Hin as [->|]; done.
    + intros id' Hid'. rewrite answer_elem_of_ne by done. by apply Hother.
Qed.

(** ** Counting registrations *)

Lemma count_delete m type l :
  m !! type = Some l → count m = (length l + count (delete type m))%nat.
Proof.
  intros Hl. unfold count.
  by rewrite (map_fold_delete_L (λ _ (l : list nat) n, (length l + n)%nat) 0%nat type l m)
    by (done || (intros; lia)).
Qed.

Lemma count_insert m type l :
  count (<[type := l]> m) = (length l + count (delete type m))%nat.
Proof.
  rewrite <- insert_delete_eq. unfold count.
  by rewrite (map_fold_insert_L (λ _ (l : list nat) n, (length l + n)%nat) 0%nat type l)
    by (apply lookup_delete_eq || (intros; lia)).
Qed.

Lemma length_remove_last h l : h ∈ l → S (length (remove_last h l)) = length l.
Proof.
  induction l as [|x l IH]; simpl; intros Hh; [by apply elem_of_nil in Hh|].
  destruct (decide (h ∈ l)) as [Hin|Hin]; simpl; [by rewrite IH|].
  destruct (decide (x = h)) as [->|Hne]; [done|].
  apply elem_of_cons in Hh as [->|]; done.
Qed.

Lemma registrations_unregister type h w :
  h ∈ listeners type w → S (registrations (unregister type h w)) = registrations w.
Proof.
  unfold listeners, registrations, unregister. simpl. intros Hh.
  destruct (eventEmitter w !! type) as [l|] eqn:Hl; simpl in *;
    [|by apply elem_of_nil in Hh].
  rewrite (count_delete _ _ _ Hl). pose proof (length_remove_last _ _ Hh) as Hlen.
  destruct (remove_last h l) as [|x l'].
  - simpl in Hlen. lia.
  - rewrite count_insert. simpl in *. lia.
Qed.

Lemma registrations_zero type w : registrations w = 0%nat → listeners type w = [].
Proof.
  unfold listeners, registrations. intros Hz.
  destruct (eventEmitter w !! type) as [l|] eqn:Hl; [|done]. simpl.
  rewrite (count_delete _ _ _ Hl) in Hz. destruct l; [done|]. simpl in Hz. lia.
Qed.

Lemma registrations_logToConsole l w : registrations (logToConsole l w) = registrations w.
Proof. unfold logToConsole. by destruct (logOutput w). Qed.

Lemma registrations_settle h o w : registrations (settle h o w) = registrations w.
Proof. unfold settle. by destruct (waiters w !! h) as [[? []]|]. Qed.

(** ** The bound on nested emissions is never reached *)

(** ** The bound on nested emissions is never reached *)

Lemma removeListener_with_agree n ann ann' type h w :
  agree n ann ann' → (registrations w ≤ S n)%nat →
  removeListener_with ann type h w = removeListener_with ann' type h w
  ∧ (registrations (removeListener_with ann type h w).2 ≤ registrations w)%nat.
Proof.
  intros Hag Hw. unfold removeListener_with. case_decide as Hh; [|done].
  pose proof (registrations_unregister _ _ _ Hh) as Hr.
  destruct (Hag type (unregister type h w)) as [Heq Hle]; [lia|].
  split; [done|lia].
Qed.

Lemma listener_with_agree n ann ann' h arg w :
  agree n ann ann' → (registrations w ≤ S n)%nat →
  listener_with ann h arg w = listener_with ann' h arg w
  ∧ (registrations (listener_with ann h arg w).2 ≤ registrations w)%nat.
Proof.
  intros Hag Hw. unfold listener_with.
  destruct (waiters w !! h) as [[[id e rep] o]|]; [|done].
  destruct (listener_line arg e rep) as [x|line]; [done|].
  destruct (removeListener_with_agree n ann ann' id h (logToConsole (Text line) w) Hag)
    as [Heq Hle]; [by rewrite registrations_logToConsole|].
  rewrite registrations_logToConsole in Hle. rewrite <- Heq.
  destruct (removeListener_with ann id h (logToConsole (Text line) w)) as [[x|] w'];
    simpl in Hle; state; rewrite ?registrations_settle, ?registrations_logToConsole;
    done.
Qed.

Lemma call_in_turn_agree n ann ann' hs arg w :
  agree n ann ann' → (registrations w ≤ S n)%nat →
  call_in_turn (λ h, listener_with ann h arg) hs w
  = call_in_turn (λ h, listener_with ann' h arg) hs w
  ∧ (registrations (call_in_turn (λ h, listener_with ann h arg) hs w).2
     ≤ registrations w)%nat.
Proof.
  intros Hag. revert w. induction hs as [|h hs IH]; intros w Hw; simpl; [done|].
  destruct (listener_with_agree n ann ann' h arg w Hag Hw) as [<- Hle].
  destruct (listener_with ann h arg w) as [[x|] w']; simpl in Hle; [done|].
  destruct (IH w') as [Heq Hle']; [lia|]. split; [done|lia].
Qed.

Lemma emit_at_agree n m type arg w :
  (registrations w ≤ n)%nat → (registrations w ≤ m)%nat →
  emit_at n type arg w = emit_at m type arg w
  ∧ (registrations (emit_at n type arg w).2 ≤ registrations w)%nat.
Proof.
  revert m type arg w. induction n as [|n IH]; intros m type arg w Hn Hm.
  - assert (registrations w = 0%nat) as Hz by lia.
    destruct m; simpl; [done|]. by rewrite (registrations_zero _ _ Hz).
  - destruct m as [|m].
    + assert (registrations w = 0%nat) as Hz by lia.
      simpl. by rewrite (registrations_zero _ _ Hz).
    + simpl. apply (call_in_turn_agree (n `min` m)); [|lia].
      intros type' w' Hw'. apply IH; lia.
Qed.

(** ** Emissions that nobody is told about *)

Lemma printable_ToString v : printable v = true → ToString v = inr (print v).
Proof. unfold printable, print. by destruct (ToString v). Qed.

Lemma listener_line_print r wt :
  printable r = true → printable (w_expectedResponse wt) = true →
  ∃ line, listener_line r (w_expectedResponse wt) (w_repeating wt) = inr line
          ∧ logged wt r = Text line.
Proof.
  intros Hr He. unfold listener_line, logged.
  rewrite (printable_ToString _ Hr), (printable_ToString _ He). simpl. eauto.
Qed.

Lemma mismatch_print r e :
  printable r = true → printable e = true → mismatch r e = inr (diagnostic r e).
Proof.
  intros Hr He. unfold mismatch, diagnostic.
  by rewrite (printable_ToString _ Hr), (printable_ToString _ He).
Qed.

Lemma emit_at_nil n type arg w : listeners type w = [] → emit_at n type arg w = (None, w).
Proof. intros Hl. destruct n; simpl; [done|]. by rewrite Hl. Qed.

Lemma hushed_emit_at n : hushed (λ type, emit_at n removeListenerEvent (Str type)).
Proof. intros type w Hw. by apply emit_at_nil. Qed.

Lemma hushed_announce : hushed announce.
Proof. intros type w Hw. by apply emit_at_nil. Qed.

Lemma listener_with_answer ann h arg w :
  hushed ann → printable arg = true →
  (∀ wt o, waiters w !! h = Some (wt, o) →
     printable (w_expectedResponse wt) = true
     ∧ (h ∈ listeners (w_id wt) w →
        listeners removeListenerEvent (unregister (w_id wt) h w) = [])) →
  listener_with ann h arg w = (None, answer h arg w).
Proof.
  intros Hann Harg Hh. unfold listener_with, answer.
  destruct (waiters w !! h) as [[wt o]|] eqn:Hw; [|done].
  destruct (Hh _ _ eq_refl) as [He Hq].
  destruct (listener_line_print arg wt Harg He) as (line & Hline & Hlog).
  destruct wt as [id e rep]. simpl in *. rewrite Hline, <- Hlog.
  assert (removeListener_with ann id h (logToConsole (logged (mkWaiter id e rep) arg) w)
          = (None, drop id h (logToConsole (logged (mkWaiter id e rep) arg) w))) as Hrm.
  { unfold removeListener_with, drop. rewrite listeners_logToConsole.
    case_decide as Hin; [|done]. apply Hann.
    rewrite listeners_unregister, !listeners_logToConsole.
    specialize (Hq Hin). rewrite listeners_unregister in Hq. done. }
  unfold settles, verdict. simpl.
  destruct (negb (ToBoolean e) || strict_equals e arg); simpl.
  { by rewrite Hrm. }
  destruct (negb rep); simpl; [|done].
  by rewrite Hrm, mismatch_print.
Qed.

Lemma answer_lookup_inv x v w h wt o :
  waiters (answer x v w) !! h = Some (wt, o) → ∃ o', waiters w !! h = Some (wt, o').
Proof.
  intros Hh. destruct (waiters w !! h) as [[wt0 o0]|] eqn:Hw.
  - destruct (answer_evolves x v w _ _ _ Hw) as (o' & Hh' & _).
    rewrite Hh in Hh'. simplify_eq. eauto.
  - apply lookup_lt_Some in Hh. rewrite answer_length in Hh.
    apply lookup_ge_None in Hw. lia.
Qed.

Lemma answer_polite x v w : polite w → polite (answer x v w).
Proof.
  intros Hw h wt o Hh. destruct (answer_lookup_inv _ _ _ _ _ _ Hh) as (o' & Hh').
  by eapply Hw.
Qed.

Lemma deliver_polite hs v w : polite w → polite (deliver hs v w).
Proof.
  revert w. induction hs as [|x hs IH]; intros w Hw; simpl; [done|].
  by apply IH, answer_polite.
Qed.

Lemma sublist_nil_inv {A} (l : list A) : l `sublist_of` [] → l = [].
Proof. intros H. by apply sublist_nil_r. Qed.

Lemma answer_unheard type x v w : unheard type w → unheard type (answer x v w).
Proof.
  intros [Hq|(-> & h & wt & o & Hl & Hh & Hid)].
  - left. apply sublist_nil_inv. rewrite <- Hq. apply answer_sublist.
  - pose proof (answer_sublist removeListenerEvent x v w) as Hsub.
    rewrite Hl in Hsub.
    destruct (listeners removeListenerEvent (answer x v w)) as [|h' l'] eqn:Hl';
      [by left|].
    right. split; [done|].
    assert (h' = h ∧ l' = []) as [-> ->].
    { apply sublist_cons_l in Hsub as (k1 & k2 & Hk & Hsub).
      destruct k1 as [|? [|? ?]]; simplify_eq/=. apply sublist_nil_r in Hsub. done. }
    destruct (answer_evolves x v w _ _ _ Hh) as (o' & Hh' & _). eauto 10.
Qed.

Lemma call_in_turn_deliver ann type hs arg w :
  hushed ann → printable arg = true → polite w → unheard type w →
  (∀ h wt o, h ∈ hs → waiters w !! h = Some (wt, o) → w_id wt = type) →
  call_in_turn (λ h, listener_with ann h arg) hs w = (None, deliver hs arg w).
Proof.
  intros Hann Harg. revert w.
  induction hs as [|h hs IH]; intros w Hpol Hun Hids; simpl; [done|].
  rewrite listener_with_answer; [|done..|].
  - apply IH.
    + by apply answer_polite.
    + by apply answer_unheard.
    + intros h' wt o Hh' Hl. destruct (answer_lookup_inv _ _ _ _ _ _ Hl) as (o' & Hl').
      eapply Hids; [by right|done].
  - intros wt o Hl. split; [by eapply Hpol|]. intros Hin.
    rewrite (Hids h wt o) in * by (done || by left).
    rewrite listeners_unregister.
    destruct Hun as [Hq|(-> & h0 & wt0 & o0 & Hl0 & _)].
    + rewrite Hq. case_decide as E; [|done]. rewrite <- E in Hin.
      rewrite Hq in Hin. by apply elem_of_nil in Hin.
    + rewrite decide_True by done. rewrite Hl0 in *.
      apply list_elem_of_singleton in Hin as ->.
      exact (remove_last_snoc h0 []).
Qed.

Lemma ToString_Str s : ToString (Str s) = inr s.
Proof. done. Qed.

(** An emission in which nothing throws and nobody is told of a removal
    is the listeners answering in turn. *)
Lemma emit_deliver type arg w :
  consistent w → polite w → unheard type w → printable arg = true →
  (type = errorEvent → listeners type w ≠ []) →
  emit (Str type) arg w = (None, deliver (listeners type w) arg w).
Proof.
  intros Hw Hpol Hun Harg Herr. unfold emit, is_error.
  destruct (bool_decide (type = errorEvent) && bool_decide (listeners errorEvent w = []))
    eqn:E.
  { apply andb_prop in E as [E1 E2]. apply bool_decide_eq_true in E1, E2.
    subst. by destruct (Herr eq_refl). }
  rewrite ToString_Str. destruct (registrations w) as [|n] eqn:Hn.
  { simpl. by rewrite (registrations_zero _ _ Hn). }
  simpl. apply (call_in_turn_deliver _ type); try done.
  - apply hushed_emit_at.
  - intros h wt o Hh Hl. destruct (Hw type) as [_ Hex].
    destruct (Hex h Hh) as (wt' & o' & Hl' & Hid). by simplify_eq.
Qed.

Lemma on_register type h w :
  listeners newListenerEvent w = [] → on type h w = (None, register type h w).
Proof.
  intros Hq. unfold on, emit. simpl. rewrite emit_at_nil by done. done.
Qed.

Lemma waiters_register id h w : waiters (register id h w) = waiters w.
Proof. done. Qed.

(** ** Everything the helper does is made of a few primitive steps *)

Section steps.
Context (P : jsstring → Prop).
#[local] Hint Constructors prim : core.
#[local] Hint Resolve rtc_refl rtc_once : core.

Lemma steps_logToConsole l w : steps P w (logToConsole l w).
Proof. unfold steps, logToConsole, console_log. destruct (logOutput w); auto. Qed.

Lemma steps_removeListener_with ann type h w :
  (∀ type w, steps P w (ann type w).2) → steps P w (removeListener_with ann type h w).2.
Proof.
  intros Hann. unfold removeListener_with. case_decide; [|apply rtc_refl].
  eapply rtc_l; [apply prim_unregister|apply Hann].
Qed.

Lemma steps_listener_with ann h arg w :
  (∀ type w, steps P w (ann type w).2) → steps P w (listener_with ann h arg w).2.
Proof.
  intros Hann. unfold listener_with.
  destruct (waiters w !! h) as [[[id e rep] o]|]; [|apply rtc_refl].
  destruct (listener_line arg e rep) as [x|line]; [apply rtc_refl|].
  assert (steps P w (removeListener_with ann id h (logToConsole (Text line) w)).2) as Hrm.
  { etrans; [apply steps_logToConsole|by apply steps_removeListener_with]. }
  destruct (removeListener_with ann id h (logToConsole (Text line) w)) as [[x|] w'];
    simpl in Hrm.
  - destruct (negb (ToBoolean e) || strict_equals e arg); [done|].
    destruct (negb rep); [done|apply steps_logToConsole].
  - destruct (negb (ToBoolean e) || strict_equals e arg); simpl.
    { etrans; [apply Hrm|]. apply rtc_once, prim_settle. }
    destruct (negb rep); simpl; [|apply steps_logToConsole].
    destruct (mismatch arg e); simpl; [done|].
    etrans; [apply Hrm|]. apply rtc_once, prim_settle.
Qed.

Lemma steps_call_in_turn call hs w :
  (∀ h w, steps P w (call h w).2) → steps P w (call_in_turn call hs w).2.
Proof.
  intros Hcall. revert w. induction hs as [|h hs IH]; intros w; simpl; [apply rtc_refl|].
  pose proof (Hcall h w) as Hh. destruct (call h w) as [[x|] w']; simpl in Hh; [done|].
  etrans; [apply Hh|apply IH].
Qed.

Lemma steps_emit_at n type arg w : steps P w (emit_at n type arg w).2.
Proof.
  revert type arg w. induction n as [|n IH]; intros type arg w; simpl; [apply rtc_refl|].
  apply steps_call_in_turn. intros h w'. apply steps_listener_with.
  intros type' w''. apply IH.
Qed.

Lemma steps_emit type arg w : steps P w (emit type arg w).2.
Proof.
  unfold emit. destruct (is_error type && _); [apply rtc_refl|].
  destruct (ToString type); [apply rtc_refl|apply steps_emit_at].
Qed.

Lemma steps_listener h arg w : steps P w (listener h arg w).2.
Proof. apply steps_listener_with. intros type w'. apply steps_emit_at. Qed.

Lemma steps_on type h w : steps P w (on type h w).2.
Proof.
  unfold on. pose proof (steps_emit (Str newListenerEvent) (Str type) w) as He.
  destruct (emit (Str newListenerEvent) (Str type) w) as [[x|] w']; simpl in *; [done|].
  etrans; [apply He|]. apply rtc_once, prim_register.
Qed.

Lemma steps_waitForResponse id e rep w : steps P w (waitForResponse id e rep w).2.
Proof.
  unfold waitForResponse.
  eapply rtc_l; [apply (prim_promise _ (mkWaiter id e rep))|].
  match goal with |- context [on id ?h ?w0] =>
    pose proof (steps_on id h w0) as Hon; destruct (on id h w0) as [[x|] w']
  end; simpl in *; [|done].
  etrans; [apply Hon|]. apply rtc_once, prim_settle.
Qed.

Lemma steps_send id url freq e w : steps P w (send id url freq e w).2.
Proof.
  unfold send. destruct (ge_zero _) as [x|repeat]; [apply rtc_refl|].
  set (msg := mkMessage _ _ _).
  etrans; [apply (steps_logToConsole (TextSent (lit "Sending message: ") msg))|].
  generalize (logToConsole (TextSent (lit "Sending message: ") msg) w). intros w1.
  destruct (ws w1) as [rs|] eqn:Hws; simpl; [|apply rtc_refl].
  etrans; [apply rtc_once,
             (prim_console _ (λ c, c ++ [TextState (lit "Ready state ") rs]))|].
  fold (console_log (TextState (lit "Ready state ") rs) w1).
  generalize (console_log (TextState (lit "Ready state ") rs) w1). intros w2.
  destruct rs; simpl; try apply rtc_refl.
  - pose proof (steps_waitForResponse id e false
                  (set_traffic (λ t, t ++ [Out msg]) w2)) as Hw.
    destruct (waitForResponse id e false _) as [h w3]. simpl in *.
    eapply rtc_l; [apply prim_traffic|apply Hw].
  - pose proof (steps_waitForResponse id e false w2) as Hw.
    by destruct (waitForResponse id e false w2) as [h w3].
  - pose proof (steps_waitForResponse id e false w2) as Hw.
    by destruct (waitForResponse id e false w2) as [h w3].
Qed.

Lemma steps_onmessage msg w : steps P w (onmessage msg w).2.
Proof.
  unfold onmessage.
  etrans; [apply rtc_once, (prim_traffic _ (λ t, t ++ [In msg]))|].
  etrans; [apply (steps_logToConsole (TextReceived (lit "Received message: ") msg))|].
  generalize (logToConsole (TextReceived (lit "Received message: ") msg)
                (set_traffic (λ t, t ++ [In msg]) w)). intros w1.
  destruct (ToBoolean (r_error msg)); [|apply steps_emit].
  destruct (error_line (r_id msg) (r_error msg)) as [x|line]; [apply rtc_refl|].
  etrans; [apply rtc_once, (prim_console _ (λ c, c ++ [Text line]))|apply steps_emit].
Qed.

Lemma steps_addRepeatingQueryId id w : steps P w (addRepeatingQueryId id w).2.
Proof.
  unfold addRepeatingQueryId.
  case_decide; simpl; [apply rtc_refl|apply rtc_once, prim_put].
Qed.

Lemma snd_await k h w : (await k h w).2 = w.
Proof. unfold await. by destruct (outcome h w) as [[]|]. Qed.

Lemma snd_awaiting k r : (awaiting k r).2 = r.2.
Proof. destruct r as [[e|h] w]; [done|]. apply snd_await. Qed.

Lemma steps_query id url w : steps P w (query id url w).2.
Proof. unfold query. rewrite snd_awaiting. apply steps_send. Qed.

Lemma steps_queryAll id url w : steps P w (queryAll id url w).2.
Proof. unfold queryAll. rewrite snd_awaiting. apply steps_send. Qed.

Lemma steps_repeatQuery id url freq w : steps P w (repeatQuery id url freq w).2.
Proof.
  unfold repeatQuery. pose proof (steps_addRepeatingQueryId id w) as H.
  destruct (addRepeatingQueryId id w) as [[e|] w1]; simpl in *; [done|].
  rewrite snd_awaiting. etrans; [apply H|apply steps_send].
Qed.

Lemma steps_removeQuery id w : steps P w (removeQuery id w).2.
Proof. unfold removeQuery. rewrite snd_awaiting. apply steps_send. Qed.

Lemma steps_cleanUp_loop keys w : steps P w (cleanUp_loop keys w).2.
Proof.
  revert w. induction keys as [|key rest IH]; intros w; simpl; [apply rtc_refl|].
  case_decide; [|apply IH].
  pose proof (steps_removeQuery key w) as Hrm.
  destruct (removeQuery key w) as [[v|e|a ks] w1]; simpl in *; try done.
  etrans; [apply Hrm|apply IH].
Qed.

Lemma steps_bindToEvent_body id url polling w :
  steps P w (bindToEvent_body id url polling w).2.
Proof. unfold bindToEvent_body. rewrite snd_awaiting. apply steps_send. Qed.

Lemma steps_bindToEvent_while id url polling bound w :
  steps P w (bindToEvent_while id url polling bound w).2.
Proof.
  unfold bindToEvent_while.
  destruct (polling && negb bound); [apply steps_bindToEvent_body|apply rtc_refl].
Qed.

Lemma steps_waitForEvent id e w : steps P w (waitForEvent id e w).2.
Proof.
  unfold waitForEvent.
  pose proof (steps_waitForResponse (prefixEvent ++ id) e true w) as Hw.
  destruct (waitForResponse (prefixEvent ++ id) e true w) as [h w1].
  by rewrite snd_await.
Qed.

Lemma steps_continue k v w :
  (∀ id, k = removeQuery_k id → P id) → steps P w (continue k v w).2.
Proof.
  intros HP. destruct k; simpl; try apply rtc_refl.
  - destruct (first v); apply rtc_refl.
  - apply rtc_once, prim_remove. by apply HP.
  - apply steps_cleanUp_loop.
  - destruct (negb (strict_equals v (Str (lit "bound")))); simpl;
      [apply rtc_refl|apply steps_bindToEvent_while].
  - apply steps_bindToEvent_while.
Qed.

Lemma steps_resume ks v w :
  (∀ id, removeQuery_k id ∈ ks → P id) → steps P w (resume ks v w).2.
Proof.
  revert v w. induction ks as [|k ks IH]; intros v w HP; simpl; [apply rtc_refl|].
  pose proof (steps_continue k v w) as H.
  destruct (continue k v w) as [[v'|e|a ks'] w1]; simpl in *.
  - etrans; [apply H|apply IH]; intros id Hid; apply HP; subst; set_solver.
  - apply H. intros id ->. apply HP. set_solver.
  - apply H. intros id ->. apply HP. set_solver.
Qed.
End steps.

(** ** The registry *)

Lemma get_define {A : Type} k k' (x : A) o :
  get k (define k' x o) = if decide (k = k') then Some x else get k o.
Proof.
  induction o as [|[k0 y] o IH]; simpl.
  - repeat case_decide; by subst.
  - destruct (decide (k0 = k')) as [->|]; simpl; repeat case_decide; by subst.
Qed.

Lemma get_put k k' x o :
  get k (put k' x o)
  = if decide (k' = protoName) then get k o
    else if decide (k = k') then Some x else get k o.
Proof. unfold put. case_decide; [done|]. apply get_define. Qed.

Lemma get_remove {A : Type} k k' (o : list (jsstring * A)) :
  get k (remove k' o) = if decide (k = k') then None else get k o.
Proof.
  unfold remove. induction o as [|[k0 y] o IH]; simpl.
  - by case_decide.
  - rewrite filter_cons. simpl.
    destruct (decide (k0 ≠ k')); simpl; repeat case_decide; subst; try done;
      rewrite IH; by repeat case_decide.
Qed.

(** ** Promises only move forward, whatever happens *)

Lemma settle_evolves h o w : evolves w (settle h o w).
Proof.
  unfold settle. destruct (waiters w !! h) as [[wt []]|] eqn:Hh; try done.
  intros h' wt' o' Hh'. simpl. destruct (decide (h' = h)) as [->|Hne].
  - rewrite Hh in Hh'. simplify_eq. rewrite list_lookup_insert_eq.
    + eexists. split; [done|]. done.
    + by eapply lookup_lt_Some.
  - rewrite list_lookup_insert_ne by done. eauto.
Qed.

Section prim.
Context (P : jsstring → Prop).

Lemma prim_evolves w w' : prim P w w' → evolves w w'.
Proof.
  destruct 1; try (by apply evolves_same).
  - intros h wt' o Hh. simpl. rewrite lookup_app_l by (by eapply lookup_lt_Some). eauto.
  - apply settle_evolves.
Qed.

Lemma steps_evolves w w' : steps P w w' → evolves w w'.
Proof. induction 1; [done|]. etrans; [by eapply prim_evolves|done]. Qed.
End prim.

Lemma repeatingQueries_settle h o w :
  repeatingQueries (settle h o w) = repeatingQueries w.
Proof. unfold settle. by destruct (waiters w !! h) as [[? []]|]. Qed.

(** No step other than the deletion of [id] drops [id] from the registry. *)
Lemma steps_keeps id w w' :
  steps (λ id', id' ≠ id) w w' →
  get id (repeatingQueries w) = Some 1 → get id (repeatingQueries w') = Some 1.
Proof.
  induction 1 as [|w1 w2 w3 Hprim _ IH]; [done|]. intros Hget. apply IH.
  destruct Hprim; simpl; try done.
  - rewrite get_put. by repeat case_decide.
  - rewrite get_remove. by case_decide.
  - by rewrite repeatingQueries_settle.
Qed.

(** ** Activity of the session *)

Lemma steps_act P a w :
  (∀ id, completes_removeQuery id a → P id) → steps P w (act a w).
Proof.
  intros HP. destruct a as [id arg|id e rep|msg|c|ks v]; simpl.
  - apply steps_emit.
  - apply steps_waitForResponse.
  - apply steps_onmessage.
  - destruct c; simpl.
    + apply steps_query.
    + apply steps_queryAll.
    + apply steps_repeatQuery.
    + apply steps_waitForResponse.
    + apply steps_removeQuery.
    + apply steps_cleanUp_loop.
    + apply steps_bindToEvent_body.
    + apply steps_waitForEvent.
  - by apply steps_resume.
Qed.

Lemma steps_perform P acts w :
  Forall (λ a, ∀ id, completes_removeQuery id a → P id) acts →
  steps P w (perform acts w).
Proof.
  intros HP. revert w. induction HP as [|a acts Ha _ IH]; intros w; simpl.
  - apply rtc_refl.
  - etrans; [by apply steps_act|apply IH].
Qed.

Lemma perform_evolves acts w : evolves w (perform acts w).
Proof.
  apply (steps_evolves (λ _, True)), steps_perform.
  by apply Forall_forall.
Qed.

Lemma sublist_snoc_notin (l k : list nat) h :
  l `sublist_of` k ++ [h] → h ∉ l → l `sublist_of` k.
Proof.
  intros (k1 & k2 & -> & H1 & H2)%sublist_app_r Hh.
  destruct k2 as [|x k2]; [by rewrite app_nil_r|].
  exfalso. apply Hh, elem_of_app. right.
  assert (x ∈ [h]) as ->%list_elem_of_singleton; [|left].
  eapply elem_of_sublist; [|done]. left.
Qed.

(** ** Orderly states *)

Lemma session_orderly : orderly session.
Proof.
  split_and!.
  - intros id. unfold listeners. simpl. split.
    + apply NoDup_nil_2.
    + by intros h ?%elem_of_nil.
  - by intros h wt o ?.
  - done.
Qed.

Lemma deliver_quiet hs v w : quiet w → quiet (deliver hs v w).
Proof.
  intros [Hn Hr]. split; apply sublist_nil_inv.
  - rewrite <- Hn. apply deliver_sublist.
  - rewrite <- Hr. apply deliver_sublist.
Qed.

Lemma deliver_orderly hs v w : orderly w → orderly (deliver hs v w).
Proof.
  intros (Hc & Hp & Hq). split_and!.
  - by apply deliver_consistent.
  - by apply deliver_polite.
  - by apply deliver_quiet.
Qed.

Lemma deliver_unheard type hs v w : unheard type w → unheard type (deliver hs v w).
Proof.
  revert w. induction hs as [|x hs IH]; intros w Hw; simpl; [done|].
  by apply IH, answer_unheard.
Qed.

Lemma quiet_unheard type w : quiet w → unheard type w.
Proof. intros [_ Hr]. by left. Qed.

(** ** Registering a waiter *)

Lemma waitForResponse_fst i e rep w : (waitForResponse i e rep w).1 = length (waiters w).
Proof. unfold waitForResponse. by destruct (on i _ _) as [[x|] w']. Qed.

Section waitForResponse.
Context (i : jsstring) (e : value) (rep : bool) (w : World).
Context (Hnew : listeners newListenerEvent w = []).
Local Abbreviation h := (waitForResponse i e rep w).1.
Local Abbreviation w1 := (waitForResponse i e rep w).2.

Lemma waitForResponse_register :
  waitForResponse i e rep w
  = (length (waiters w),
     register i (length (waiters w))
       (set_waiters (λ ws, ws ++ [(mkWaiter i e rep, Pending)]) w)).
Proof. unfold waitForResponse. by rewrite on_register. Qed.

Lemma waitForResponse_waiters :
  waiters w1 = waiters w ++ [(mkWaiter i e rep, Pending)].
Proof. by rewrite waitForResponse_register. Qed.

Lemma waitForResponse_lookup : waiters w1 !! h = Some (mkWaiter i e rep, Pending).
Proof.
  rewrite waitForResponse_register. simpl.
  rewrite lookup_app_r by done. by rewrite Nat.sub_diag.
Qed.

Lemma waitForResponse_lookup_old h' :
  (h' < length (waiters w))%nat → waiters w1 !! h' = waiters w !! h'.
Proof. intros Hlt. rewrite waitForResponse_waiters. by apply lookup_app_l. Qed.

Lemma waitForResponse_listeners id :
  listeners id w1 = if decide (id = i) then listeners i w ++ [h] else listeners id w.
Proof.
  rewrite waitForResponse_register. simpl.
  by rewrite listeners_register.
Qed.

Lemma waitForResponse_others :
  logOutput w1 = logOutput w ∧ console w1 = console w ∧ ws w1 = ws w
  ∧ traffic w1 = traffic w ∧ repeatingQueries w1 = repeatingQueries w.
Proof. by rewrite waitForResponse_register. Qed.

Lemma waitForResponse_consistent : consistent w → consistent w1.
Proof.
  intros Hw id. destruct (Hw id) as [Hnd Hex].
  assert (∀ h', h' ∈ listeners id w → (h' < length (waiters w))%nat) as Hlt.
  { intros h' Hh'. destruct (Hex h' Hh') as (wt & o & Hl & _).
    by eapply lookup_lt_Some. }
  rewrite waitForResponse_listeners. case_decide as E; [subst|]; split.
  - apply NoDup_app. split_and!; [done| |apply NoDup_singleton].
    intros x Hx Hx'. apply list_elem_of_singleton in Hx' as ->. apply Hlt in Hx.
    rewrite waitForResponse_fst in Hx. lia.
  - intros h' [Hh'|Hh']%elem_of_app; [|apply list_elem_of_singleton in Hh' as ->].
    + destruct (Hex h' Hh') as (wt & o & Hl & Hid).
      exists wt, o. by rewrite waitForResponse_lookup_old by auto.
    + rewrite waitForResponse_lookup. eauto.
  - done.
  - intros h' Hh'. destruct (Hex h' Hh') as (wt & o & Hl & Hid).
    exists wt, o. by rewrite waitForResponse_lookup_old by auto.
Qed.

Lemma waitForResponse_fresh id : consistent w → id ≠ i → h ∉ listeners id w1.
Proof.
  intros Hw Hne Hin. rewrite waitForResponse_listeners in Hin.
  rewrite decide_False in Hin by done.
  destruct (Hw id) as [_ Hex]. destruct (Hex _ Hin) as (wt & o & Hl & _).
  apply lookup_lt_Some in Hl. rewrite waitForResponse_fst in Hl. lia.
Qed.

Lemma waitForResponse_polite : polite w → printable e = true → polite w1.
Proof.
  intros Hw He h' wt o. rewrite waitForResponse_waiters.
  intros [Hl|[_ Hl]]%lookup_app_Some; [by eapply Hw|].
  destruct (h' - length (waiters w))%nat; simplify_eq/=. done.
Qed.

Lemma waitForResponse_unheard :
  listeners removeListenerEvent w = [] → unheard i w1.
Proof.
  intros Hr. destruct (decide (i = removeListenerEvent)) as [Hi|Hne].
  - right. split; [done|]. exists h, (mkWaiter i e rep), Pending.
    rewrite waitForResponse_listeners, decide_True by done.
    rewrite waitForResponse_lookup. split_and!; [|done..].
    by rewrite Hi, Hr.
  - left. rewrite waitForResponse_listeners. by rewrite decide_False.
Qed.

Lemma waitForResponse_not_nil : listeners i w1 ≠ [].
Proof.
  rewrite waitForResponse_listeners, decide_True by done.
  by destruct (listeners i w).
Qed.
End waitForResponse.

(** ** One waiter, one reply *)

Lemma emit_snd_deliver type arg w :
  emit (Str type) arg w = (None, deliver (listeners type w) arg w) →
  (emit (Str type) arg w).2 = deliver (listeners type w) arg w.
Proof. by intros ->. Qed.

Section round_trip.
Context (w : World) (i : jsstring) (e : value) (rep : bool) (v : value).
Context (Hw : orderly w) (He : printable e = true) (Hv : printable v = true).
Local Abbreviation wt := (mkWaiter i e rep).
Local Abbreviation h := (waitForResponse i e rep w).1.
Local Abbreviation w1 := (waitForResponse i e rep w).2.
Local Abbreviation w2 := (emit (Str i) v w1).2.

Lemma round_trip_lookup : waiters w1 !! h = Some (wt, Pending).
Proof. apply waitForResponse_lookup, Hw. Qed.

Lemma round_trip_registered : h ∈ listeners i w1.
Proof.
  rewrite waitForResponse_listeners by apply Hw. rewrite decide_True by done.
  apply elem_of_app. right. left.
Qed.

Lemma round_trip_emit :
  emit (Str i) v w1 = (None, deliver (listeners i w ++ [h]) v w1).
Proof.
  destruct Hw as (Hc & Hp & Hn & Hr).
  rewrite emit_deliver; try done.
  - by rewrite waitForResponse_listeners, decide_True.
  - by apply waitForResponse_consistent.
  - by apply waitForResponse_polite.
  - by apply waitForResponse_unheard.
  - intros _. by apply waitForResponse_not_nil.
Qed.

Lemma round_trip_deliver : w2 = deliver (listeners i w1) v w1.
Proof.
  rewrite round_trip_emit. simpl.
  by rewrite (waitForResponse_listeners i e rep w) by apply Hw; rewrite decide_True.
Qed.

Lemma round_trip_outcome : outcome h w2 = Some (verdict wt v).
Proof.
  unfold outcome. rewrite round_trip_deliver.
  erewrite deliver_lookup; [done|apply round_trip_lookup|apply round_trip_registered].
Qed.

Lemma round_trip_consistent : consistent w2.
Proof.
  rewrite round_trip_deliver. apply deliver_consistent, waitForResponse_consistent; apply Hw.
Qed.

Lemma round_trip_polite : polite w2.
Proof.
  rewrite round_trip_deliver. apply deliver_polite, waitForResponse_polite; try done;
    apply Hw.
Qed.

Lemma round_trip_deregisters : settles wt v = true → ∀ id, h ∉ listeners id w2.
Proof.
  intros Hs. rewrite round_trip_deliver.
  eapply deliver_deregisters.
  - apply waitForResponse_consistent; apply Hw.
  - apply round_trip_lookup.
  - done.
  - apply round_trip_registered.
  - intros id Hid. apply waitForResponse_fresh; [apply Hw..|done].
Qed.

Lemma round_trip_stays :
  settles wt v = false → h ∈ listeners i w2 ∧ outcome h w2 = Some Pending.
Proof.
  intros Hs. split.
  - rewrite round_trip_deliver.
    eapply deliver_keeps; [apply round_trip_lookup|done|apply round_trip_registered].
  - rewrite round_trip_outcome. unfold settles in Hs.
    by destruct (verdict wt v).
Qed.

Lemma round_trip_no_residue :
  settles wt v = true → ∀ id, listeners id w2 `sublist_of` listeners id w.
Proof.
  intros Hs id.
  pose proof (deliver_sublist id (listeners i w1) v w1) as Hsub.
  rewrite <- round_trip_deliver in Hsub.
  rewrite (waitForResponse_listeners i e rep w) in Hsub by apply Hw.
  case_decide; [subst|done].
  eapply sublist_snoc_notin; [done|]. by apply round_trip_deregisters.
Qed.

Lemma round_trip_quiet : settles wt v = true → quiet w2.
Proof.
  intros Hs. destruct Hw as (_ & _ & Hn & Hr).
  split; apply sublist_nil_inv.
  - rewrite <- Hn. by apply round_trip_no_residue.
  - rewrite <- Hr. by apply round_trip_no_residue.
Qed.

Lemma round_trip_orderly : settles wt v = true → orderly w2.
Proof.
  intros Hs. split_and!;
    [apply round_trip_consistent|apply round_trip_polite|by apply round_trip_quiet].
Qed.

Lemma round_trip_settled o later :
  verdict wt v = o → o ≠ Pending → outcome h (perform later w2) = Some o.
Proof.
  intros Hv' Ho. eapply evolves_outcome; [apply perform_evolves| |done].
  by rewrite round_trip_outcome, Hv'.
Qed.

Lemma round_trip_others :
  logOutput w2 = logOutput w ∧ ws w2 = ws w ∧ traffic w2 = traffic w
  ∧ repeatingQueries w2 = repeatingQueries w.
Proof.
  rewrite round_trip_deliver.
  destruct (deliver_others (listeners i w1) v w1) as (-> & -> & -> & ->).
  destruct (waitForResponse_others i e rep w) as (-> & _ & -> & -> & ->); [apply Hw|done].
Qed.
End round_trip.

(** ** A waiter and the replies to its id *)

Section waiting.
Context (type : jsstring) (h : nat) (wt : Waiter) (w : World) (v : value).
Context (Hw : waiting type h wt w) (Hv : printable v = true).
Local Abbreviation w' := (deliver (listeners type w) v w).

Lemma waiting_id : w_id wt = type.
Proof.
  destruct Hw as (Hc & _ & _ & Hl & Hin). destruct (Hc type) as [_ Hex].
  destruct (Hex h Hin) as (wt' & o & Hl' & Hid). by simplify_eq.
Qed.

Lemma waiting_emit : emit (Str type) v w = (None, w').
Proof.
  destruct Hw as (Hc & Hp & Hu & Hl & Hin). apply emit_deliver; try done.
  intros _ Hnil. rewrite Hnil in Hin. by apply elem_of_nil in Hin.
Qed.

Lemma waiting_outcome : outcome h w' = Some (verdict wt v).
Proof.
  destruct Hw as (Hc & Hp & Hu & Hl & Hin). unfold outcome.
  by erewrite deliver_lookup.
Qed.

Lemma waiting_stays : settles wt v = false → waiting type h wt w'.
Proof.
  intros Hs. pose proof waiting_outcome as Ho.
  destruct Hw as (Hc & Hp & Hu & Hl & Hin). split_and!.
  - by apply deliver_consistent.
  - by apply deliver_polite.
  - by apply deliver_unheard.
  - erewrite deliver_lookup; [|done..]. unfold settles in Hs.
    by destruct (verdict wt v).
  - by eapply deliver_keeps.
Qed.

Lemma waiting_deregisters : settles wt v = true → ∀ id, h ∉ listeners id w'.
Proof.
  intros Hs. pose proof waiting_id as Hid.
  destruct Hw as (Hc & Hp & Hu & Hl & Hin).
  eapply deliver_deregisters; try done.
  intros id Hne Hin'. destruct (Hc id) as [_ Hex].
  destruct (Hex h Hin') as (wt' & o & Hl' & Hid'). simplify_eq.
Qed.
End waiting.

Lemma waitForResponse_waiting i e rep w :
  orderly w → printable e = true →
  waiting i (waitForResponse i e rep w).1 (mkWaiter i e rep) (waitForResponse i e rep w).2.
Proof.
  intros (Hc & Hp & Hn & Hr) He. split_and!.
  - by apply waitForResponse_consistent.
  - by apply waitForResponse_polite.
  - by apply waitForResponse_unheard.
  - by apply waitForResponse_lookup.
  - rewrite waitForResponse_listeners, decide_True by done.
    apply elem_of_app. right. left.
Qed.

Lemma perform_snoc acts a w : perform (acts ++ [a]) w = act a (perform acts w).
Proof. unfold perform. by rewrite foldl_app. Qed.

(** A waiter sits through every reply that does not settle it. *)
Lemma waiting_through type h wt w rs :
  waiting type h wt w →
  Forall (λ r, settles wt r = false ∧ printable r = true) rs →
  waiting type h wt (perform (Emits (Str type) <$> rs) w).
Proof.
  intros Hw Hrs. revert w Hw. induction Hrs as [|r rs [Hs Hr] _ IH]; intros w Hw; [done|].
  simpl. rewrite (waiting_emit type h wt w r) by done. simpl.
  apply IH. by apply waiting_stays.
Qed.

Lemma primitive_printable e : strict_equals e e = true → printable e = true.
Proof. by destruct e. Qed.

Lemma verdict_expecting_nothing i e rep v :
  ToBoolean e = false → verdict (mkWaiter i e rep) v = Resolved v.
Proof. intros He. unfold verdict. simpl. by rewrite He. Qed.

Lemma verdict_match i e rep v :
  strict_equals e v = true → verdict (mkWaiter i e rep) v = Resolved v.
Proof. intros Hv. unfold verdict. simpl. rewrite Hv. by rewrite orb_true_r. Qed.

Lemma verdict_mismatch i e v :
  ToBoolean e = true → strict_equals e v = false →
  verdict (mkWaiter i e false) v = Rejected (Thrown (Str (diagnostic v e))).
Proof. intros He Hv. unfold verdict. simpl. by rewrite He, Hv. Qed.

Lemma verdict_ignored i e v :
  ToBoolean e = true → strict_equals e v = false →
  verdict (mkWaiter i e true) v = Pending.
Proof. intros He Hv. unfold verdict. simpl. by rewrite He, Hv. Qed.

Lemma print_ToString v s : ToString v = inr s → print v = s ∧ printable v = true.
Proof. unfold print, printable. by intros ->. Qed.

(** ** A one-shot waiter and a reply it did not expect *)

(** C2, as stated, at the expected value [0]: the reply [1] is not equal to
    it, and the waiter resolves with [1] instead of rejecting. *)
Lemma one_shot_mismatch_counterexample :
  let h := (waitForResponse (lit "q1") (Num 0%float) false session).1 in
  let w1 := (waitForResponse (lit "q1") (Num 0%float) false session).2 in
  strict_equals (Num 0%float) (Num 1%float) = false
  ∧ outcome h (emit (Str (lit "q1")) (Num 1%float) w1).2 = Some (Resolved (Num 1%float)).
Proof. vm_compute. done. Qed.

(** C2, amended. For every id [i], every truthy expected value [e] and
    every reply [r] that is not strictly equal to [e], both of which can be
    turned into strings, a non-repeating waiter for [i] that is dispatched
    [r] rejects with the diagnostic that names [r] and [e]; the dispatch
    throws nothing, its listener is removed in the same dispatch, and the
    promise stays rejected whatever happens afterwards, a later reply equal
    to [e] included. The starting state is an orderly one: nobody waits
    under the emitter's own event names and the expected values of the
    waiters there are can be turned into strings. *)
Theorem one_shot_mismatch_rejects_once (w : World) (i : jsstring) (e r : value)
    (se sr : jsstring) :
  orderly w → ToBoolean e = true → strict_equals e r = false →
  ToString e = inr se → ToString r = inr sr →
  let h := (waitForResponse i e false w).1 in
  let w1 := (waitForResponse i e false w).2 in
  let w2 := (emit (Str i) r w1).2 in
  let reason := Thrown (Str (lit "Returned response (" ++ sr
                             ++ lit ") does not match expected (" ++ se ++ lit ")")) in
  outcome h w1 = Some Pending
  ∧ (emit (Str i) r w1).1 = None
  ∧ outcome h w2 = Some (Rejected reason)
  ∧ (∀ id, h ∉ listeners id w2)
  ∧ (∀ later, outcome h (perform later w2) = Some (Rejected reason)).
Proof.
  intros Hw He Hr Hse Hsr h w1 w2 reason.
  destruct (print_ToString _ _ Hse) as [Hpe Hpre].
  destruct (print_ToString _ _ Hsr) as [Hpr Hprr].
  assert (verdict (mkWaiter i e false) r = Rejected reason) as Hv.
  { rewrite verdict_mismatch by done. unfold diagnostic. by rewrite Hpe, Hpr. }
  split_and!.
  - unfold outcome. subst h w1. by rewrite round_trip_lookup.
  - subst w1. by rewrite round_trip_emit.
  - subst h w2 w1. by rewrite round_trip_outcome, Hv.
  - apply round_trip_deregisters; try done. unfold settles. by rewrite Hv.
  - intros later. by apply round_trip_settled.
Qed.

Lemma one_shot_mismatch_rejects_once_witness :
  outcome 0 (perform [Emits (Str (lit "p1")) (Str (lit "repeating"))]
               (emit (Str (lit "p1")) (Str (lit "stopped"))
                  (waitForResponse (lit "p1") (Str (lit "repeating")) false session).2).2)
  = Some (Rejected (Thrown (Str (lit
      "Returned response (stopped) does not match expected (repeating)")))).
Proof.
  exact (proj2 (proj2 (proj2 (proj2
    (one_shot_mismatch_rejects_once session (lit "p1") (Str (lit "repeating"))
       (Str (lit "stopped")) (lit "repeating") (lit "stopped")
       session_orderly eq_refl eq_refl eq_refl eq_refl))))
    [Emits (Str (lit "p1")) (Str (lit "repeating"))]).
Defined.

(** ** A repeating waiter and a stream of replies *)

(** C3, as stated, at the expected value [0]: the first reply, [1], is not
    equal to it, and the repeating waiter resolves on it at once. And at the
    expected value [["DONE"]]: the reply [["DONE"]] is another array, and the
    waiter stays pending. *)
Lemma repeating_waiter_counterexample :
  let h := (waitForRepeatResponse (lit "p1") (Num 0%float) session).1 in
  let w1 := (waitForRepeatResponse (lit "p1") (Num 0%float) session).2 in
  let h' := (waitForRepeatResponse (lit "p1") (Arr [Str (lit "DONE")]) session).1 in
  let w1' := (waitForRepeatResponse (lit "p1") (Arr [Str (lit "DONE")]) session).2 in
  (strict_equals (Num 0%float) (Num 1%float) = false
   ∧ outcome h (emit (Str (lit "p1")) (Num 1%float) w1).2 = Some (Resolved (Num 1%float)))
  ∧ outcome h' (emit (Str (lit "p1")) (Arr [Str (lit "DONE")]) w1').2 = Some Pending.
Proof. vm_compute. done. Qed.

(** C3, amended. For every id [i] and every truthy expected value [e] that
    is strictly equal to itself (a boolean, a number or a string), a
    repeating waiter for [i] that is dispatched the replies [rs] and then
    [e], where no reply of [rs] is strictly equal to [e] and each can be
    turned into a string, is pending and registered after each reply of
    [rs], resolves with [e] when [e] arrives, has its listener removed in
    that dispatch, and keeps that one resolution afterwards. The starting
    state is an orderly one. *)
Theorem repeating_waiter_waits_for_match (w : World) (i : jsstring) (e : value)
    (rs : list value) :
  orderly w → ToBoolean e = true → strict_equals e e = true →
  Forall (λ r, strict_equals e r = false ∧ printable r = true) rs →
  let h := (waitForRepeatResponse i e w).1 in
  let w1 := (waitForRepeatResponse i e w).2 in
  let w2 := perform (Emits (Str i) <$> rs ++ [e]) w1 in
  (∀ n, outcome h (perform (Emits (Str i) <$> take n rs) w1) = Some Pending
        ∧ h ∈ listeners i (perform (Emits (Str i) <$> take n rs) w1))
  ∧ outcome h w2 = Some (Resolved e)
  ∧ (∀ id, h ∉ listeners id w2)
  ∧ (∀ later, outcome h (perform later w2) = Some (Resolved e)).
Proof.
  intros Hw He Hee Hrs h w1 w2.
  pose proof (primitive_printable _ Hee) as Hpe.
  assert (waiting i h (mkWaiter i e true) w1) as Hw1
    by by apply waitForResponse_waiting.
  assert (Forall (λ r, settles (mkWaiter i e true) r = false ∧ printable r = true) rs)
    as Hrs'.
  { eapply Forall_impl; [done|]. intros r [Hr Hp]. split; [|done].
    unfold settles. by rewrite verdict_ignored. }
  assert (∀ rs', Forall (λ r, settles (mkWaiter i e true) r = false
                             ∧ printable r = true) rs' →
            waiting i h (mkWaiter i e true) (perform (Emits (Str i) <$> rs') w1))
    as Hthrough by (intros; by apply waiting_through).
  assert (settles (mkWaiter i e true) e = true) as Hs
    by (unfold settles; by rewrite verdict_match).
  pose proof (Hthrough rs Hrs') as Hlast.
  assert (w2 = deliver (listeners i (perform (Emits (Str i) <$> rs) w1)) e
                 (perform (Emits (Str i) <$> rs) w1)) as Hw2.
  { subst w2. rewrite fmap_app. simpl. rewrite perform_snoc. simpl.
    by rewrite (waiting_emit i h (mkWaiter i e true)). }
  assert (outcome h w2 = Some (Resolved e)) as Hout.
  { rewrite Hw2, (waiting_outcome i h (mkWaiter i e true)) by done.
    by rewrite verdict_match. }
  split_and!.
  - intros n. destruct (Hthrough (take n rs)) as (_ & _ & _ & Hl & Hin).
    { by apply Forall_take. }
    unfold outcome. by rewrite Hl.
  - done.
  - rewrite Hw2. by apply (waiting_deregisters i h (mkWaiter i e true)).
  - intros later. eapply evolves_outcome; [apply perform_evolves|done..].
Qed.

Lemma repeating_waiter_waits_for_match_witness :
  outcome 0 (perform (Emits (Str (lit "p1"))
                        <$> [Str (lit "WAIT"); Num 0.25%float; Arr [Str (lit "DONE")]]
                            ++ [Str (lit "DONE")])
               (waitForRepeatResponse (lit "p1") (Str (lit "DONE")) session).2)
  = Some (Resolved (Str (lit "DONE"))).
Proof.
  refine (proj1 (proj2 (repeating_waiter_waits_for_match session (lit "p1")
                          (Str (lit "DONE"))
                          [Str (lit "WAIT"); Num 0.25%float; Arr [Str (lit "DONE")]]
                          session_orderly eq_refl eq_refl _))).
  repeat constructor.
Defined.

(** ** Two waiters for one id *)

(** C4, as stated, at two waiters for [q1] that expect nothing: after the
    second registration both are registered, and the reply dispatched next
    resolves the older one as well. *)
Lemma second_waiter_counterexample :
  let h1 := (waitForResponse (lit "q1") Undefined false session).1 in
  let w1 := (waitForResponse (lit "q1") Undefined false session).2 in
  let h2 := (waitForResponse (lit "q1") Undefined false w1).1 in
  let w2 := (waitForResponse (lit "q1") Undefined false w1).2 in
  h1 ≠ h2
  ∧ listeners (lit "q1") w2 = [h1; h2]
  ∧ outcome h1 w2 = Some Pending
  ∧ outcome h1 (emit (Str (lit "q1")) (Str (lit "ALIVE")) w2).2
    = Some (Resolved (Str (lit "ALIVE"))).
Proof. vm_compute. split_and!; [discriminate|reflexivity..]. Qed.

(** C4, amended. Several live waiters can be registered for one id. For
    every id [i] other than the emitter's own event names [newListener] and
    [removeListener], a second registration for [i] is added after the
    first, which stays registered and pending, and a reply then dispatched
    for [i] is delivered to both, the older first; each settles, or stays
    pending, by its own expected value and repeating flag. The expected
    values and the payload can be turned into strings, and the starting
    state is an orderly one. *)
Theorem waiters_for_one_id_coexist (w : World) (i : jsstring) (e1 e2 : value)
    (rep1 rep2 : bool) (payload : value) :
  orderly w → i ≠ newListenerEvent → i ≠ removeListenerEvent →
  printable e1 = true → printable e2 = true → printable payload = true →
  let h1 := (waitForResponse i e1 rep1 w).1 in
  let w1 := (waitForResponse i e1 rep1 w).2 in
  let h2 := (waitForResponse i e2 rep2 w1).1 in
  let w2 := (waitForResponse i e2 rep2 w1).2 in
  let w3 := (emit (Str i) payload w2).2 in
  h1 ≠ h2
  ∧ listeners i w2 = listeners i w ++ [h1; h2]
  ∧ outcome h1 w2 = Some Pending
  ∧ outcome h2 w2 = Some Pending
  ∧ emit (Str i) payload w2 = (None, deliver (listeners i w ++ [h1; h2]) payload w2)
  ∧ outcome h1 w3 = Some (verdict (mkWaiter i e1 rep1) payload)
  ∧ outcome h2 w3 = Some (verdict (mkWaiter i e2 rep2) payload).
Proof.
  intros Hw Hin Hir He1 He2 Hp h1 w1 h2 w2 w3.
  assert (orderly w1) as Hw1.
  { destruct Hw as (Hc & Hpol & Hn & Hr). split_and!.
    - by apply waitForResponse_consistent.
    - by apply waitForResponse_polite.
    - split; subst w1; rewrite waitForResponse_listeners by done;
        by rewrite decide_False. }
  pose proof Hw as (Hc & Hpol & Hn & Hr). pose proof Hw1 as (Hc1 & Hpol1 & Hn1 & Hr1).
  assert (listeners i w2 = listeners i w ++ [h1; h2]) as Hl.
  { subst w2 h2 w1. rewrite !waitForResponse_listeners by done.
    rewrite !decide_True by done. by rewrite <- app_assoc. }
  assert (h1 ≠ h2) as Hne.
  { subst h1 h2 w1. rewrite !waitForResponse_fst, waitForResponse_waiters by done.
    rewrite length_app. simpl. lia. }
  assert (waiters w2 !! h1 = Some (mkWaiter i e1 rep1, Pending)) as H1.
  { subst w2. rewrite waitForResponse_lookup_old; [by apply waitForResponse_lookup|done|].
    subst h1 w1. rewrite waitForResponse_fst, waitForResponse_waiters by done.
    rewrite length_app. simpl. lia. }
  assert (waiters w2 !! h2 = Some (mkWaiter i e2 rep2, Pending)) as H2
    by by apply waitForResponse_lookup.
  assert (waiting i h2 (mkWaiter i e2 rep2) w2) as Hw2
    by by apply waitForResponse_waiting.
  pose proof (waiting_emit i h2 _ w2 payload Hw2 Hp) as Hemit. rewrite Hl in Hemit.
  split_and!; try done.
  - unfold outcome. by rewrite H1.
  - unfold outcome. by rewrite H2.
  - subst w3. rewrite Hemit. unfold outcome. simpl.
    erewrite deliver_lookup; [done..|]. set_solver.
  - subst w3. rewrite Hemit. unfold outcome. simpl.
    erewrite deliver_lookup; [done..|]. set_solver.
Qed.

Lemma waiters_for_one_id_coexist_witness :
  outcome 0 (emit (Str (lit "q1")) (Str (lit "ALIVE"))
               (waitForResponse (lit "q1") (Str (lit "DEAD")) true
                  (waitForResponse (lit "q1") Undefined false session).2).2).2
  = Some (Resolved (Str (lit "ALIVE"))).
Proof.
  exact (proj1 (proj2 (proj2 (proj2 (proj2 (proj2
    (waiters_for_one_id_coexist session (lit "q1") Undefined (Str (lit "DEAD"))
       false true (Str (lit "ALIVE")) session_orderly
       ltac:(vm_compute; discriminate) ltac:(vm_compute; discriminate)
       eq_refl eq_refl eq_refl))))))).
Defined.

(** ** States that differ by the console and the traffic only *)








#[local] Instance same_correlator_refl : Reflexive same_correlator.
Proof. by intros w. Qed.

Lemma same_correlator_sym w w' : same_correlator w w' → same_correlator w' w.
Proof. intros [E1 E2]. by split. Qed.

Lemma same_correlator_trans w1 w2 w3 :
  same_correlator w1 w2 → same_correlator w2 w3 → same_correlator w1 w3.
Proof. intros [E1 E2] [E3 E4]. split; congruence. Qed.

Lemma eventEmitter_settle h o w : eventEmitter (settle h o w) = eventEmitter w.
Proof. unfold settle. by destruct (waiters w !! h) as [[? []]|]. Qed.

Lemma eventEmitter_logToConsole l w : eventEmitter (logToConsole l w) = eventEmitter w.
Proof. unfold logToConsole. by destruct (logOutput w). Qed.

Lemma eventEmitter_drop_same id h w w' :
  eventEmitter w' = eventEmitter w →
  eventEmitter (drop id h w') = eventEmitter (drop id h w).
Proof.
  intros E. unfold drop, listeners, unregister. rewrite E.
  case_decide; simpl; by rewrite E.
Qed.

Lemma answer_same_correlator h v w w' :
  same_correlator w w' → same_correlator (answer h v w) (answer h v w').
Proof.
  intros [E1 E2]. split; [|by rewrite !answer_waiters, E2].
  unfold answer. rewrite E2. destruct (waiters w !! h) as [[wt o]|]; [|done].
  destruct (settles wt v).
  - rewrite !eventEmitter_settle. apply eventEmitter_drop_same.
    by rewrite !eventEmitter_logToConsole.
  - by rewrite !eventEmitter_logToConsole.
Qed.

Lemma deliver_same_correlator hs v w w' :
  same_correlator w w' → same_correlator (deliver hs v w) (deliver hs v w').
Proof.
  revert w w'. induction hs as [|x hs IH]; intros w w' H; simpl; [done|].
  by apply IH, answer_same_correlator.
Qed.


(** ** A message sent and its reply *)





(** ** The registry keeps one entry per id *)

Lemma define_keys {A : Type} k (x : A) o :
  (define k x o).*1 = if decide (k ∈ o.*1) then o.*1 else o.*1 ++ [k].
Proof.
  induction o as [|[k' y] o IH]; csimpl; [done|].
  destruct (decide (k' = k)) as [->|Hne]; csimpl.
  - rewrite decide_True by left. done.
  - rewrite IH. destruct (decide (k ∈ o.*1)) as [Hin|Hin].
    + rewrite decide_True by (by right). done.
    + rewrite decide_False by (by rewrite not_elem_of_cons). done.
Qed.

Lemma put_NoDup k x o : NoDup o.*1 → NoDup (put k x o).*1.
Proof.
  intros Hnd. unfold put. case_decide; [done|].
  rewrite define_keys. case_decide; [done|].
  apply NoDup_app. split_and!; [done| |apply NoDup_singleton].
  intros k' Hk' Hk''. by apply list_elem_of_singleton in Hk'' as ->.
Qed.

Lemma remove_NoDup {A : Type} k (o : list (jsstring * A)) :
  NoDup o.*1 → NoDup (remove k o).*1.
Proof.
  intros Hnd. eapply sublist_NoDup; [done|].
  apply fmap_sublist, sublist_filter.
Qed.

Lemma steps_registry_NoDup P w w' :
  steps P w w' → NoDup (repeatingQueries w).*1 → NoDup (repeatingQueries w').*1.
Proof.
  induction 1 as [|w1 w2 w3 Hprim _ IH]; [done|]. intros Hnd. apply IH.
  destruct Hprim; simpl; try done.
  - by apply put_NoDup.
  - by apply remove_NoDup.
  - by rewrite repeatingQueries_settle.
Qed.

Lemma perform_registry_NoDup acts w :
  NoDup (repeatingQueries w).*1 → NoDup (repeatingQueries (perform acts w)).*1.
Proof.
  apply (steps_registry_NoDup (λ _, True)), steps_perform.
  by apply Forall_forall.
Qed.

(** Whatever the session has been through since it was opened, its registry
    holds one entry per id. *)
Lemma session_registry_NoDup acts : NoDup (repeatingQueries (perform acts session)).*1.
Proof. apply perform_registry_NoDup. simpl. apply NoDup_nil_2. Qed.

(** ** Orderly states after a call *)





(** ** Cleaning up *)













(** ** Payloads and errors that cannot be turned into strings *)

(** C1, at a one-shot waiter for [q1] that expects nothing and the reply
    [{id: "q1", data: {toString: 1}}], with logging disabled: the listener
    throws while it builds the line for the log, before it removes itself
    and resolves; the exception leaves [onmessage], and the waiter is
    pending and registered as before. *)
Example one_shot_waiter_and_a_payload_without_string :
  let h := (waitForResponse (lit "q1") Undefined false session).1 in
  let w1 := (waitForResponse (lit "q1") Undefined false session).2 in
  let reply := mkReply (Str (lit "q1")) (Obj [(lit "toString", Num 1%float)])
                 Undefined Undefined in
  logOutput w1 = false
  ∧ outcome h w1 = Some Pending
  ∧ (onmessage reply w1).1 = Some TypeError
  ∧ outcome h (onmessage reply w1).2 = Some Pending
  ∧ listeners (lit "q1") (onmessage reply w1).2 = [h].
Proof. vm_compute. done. Qed.


(** C7, at [query("q1", "scene/Player")] and [queryAll("q2", "scene/Enemies")]
    answered with [{id: "q1", data: [{toString: 1}]}] and
    [{id: "q2", data: [{toString: 1}]}]: neither call returns, since the
    listener throws while it builds the line for the log and the promise
    that the call awaits stays pending. *)
Example query_and_a_payload_without_string :
  let data := Arr [Obj [(lit "toString", Num 1%float)]] in
  let reply id := mkReply (Str (lit id)) data Undefined Undefined in
  (onmessage (reply "q1") (query (lit "q1") (lit "scene/Player") session).2).1
  = Some TypeError
  ∧ (run [Delivered (reply "q1")] (query (lit "q1") (lit "scene/Player") session)).1
    = Await (Response 0) [query_k]
  ∧ (run [Delivered (reply "q2")] (queryAll (lit "q2") (lit "scene/Enemies") session)).1
    = Await (Response 0) [queryAll_k].
Proof. vm_compute. done. Qed.


(** ** Repeating queries *)

(** C5, at [repeatQuery("__proto__", "scene/Player", 0)] called twice on
    an open socket: the first call leaves no entry in the registry, and the
    second call is not refused: it sends its message and waits like the
    first. *)
Example repeatQuery_twice_with_the_id_proto :
  let first := repeatQuery (lit "__proto__") (lit "scene/Player") (Num 0%float) session in
  let second := repeatQuery (lit "__proto__") (lit "scene/Player") (Num 0%float) first.2 in
  let frame := Out (mkMessage (lit "__proto__") (lit "/q/scene/Player")
                      (Some (Num 0%float))) in
  first.1 = Await (Response 0) [repeatQuery_k]
  ∧ repeatingQueries first.2 = []
  ∧ second.1 = Await (Response 1) [repeatQuery_k]
  ∧ traffic second.2 = [frame; frame].
Proof. vm_compute. done. Qed.

(** ** Binding to an event *)

(** C8, at [bindToEvent("ready", "scene/Door")] answered with
    [{id: "event_ready", info: "failed"}]: the waiter was registered with
    no expected value, since ["bound"] is passed to [send] in the place of
    [freq]; the reply resolves it, and after the one-second sleep the call
    returns normally. *)
Example bindToEvent_takes_any_reply :
  let w := session in
  let refusal := mkReply (Str (lit "event_ready")) Undefined (Str (lit "failed"))
                   Undefined in
  (bindToEvent (lit "ready") (lit "scene/Door") false w).1
  = Await (Response 0) [bindToEvent_sent (lit "ready") (lit "scene/Door") false]
  ∧ waiters (bindToEvent (lit "ready") (lit "scene/Door") false w).2
    = [(mkWaiter (lit "event_ready") Undefined false, Pending)]
  ∧ traffic (bindToEvent (lit "ready") (lit "scene/Door") false w).2
    = [Out (mkMessage (lit "event_ready") (lit "/bind/scene/Door") None)]
  ∧ (run [Delivered refusal] (bindToEvent (lit "ready") (lit "scene/Door") false w)).1
    = Await (Timeout 1000)
        [bindToEvent_slept (lit "ready") (lit "scene/Door") false false]
  ∧ (run [Delivered refusal; TimerFired]
       (bindToEvent (lit "ready") (lit "scene/Door") false w)).1
    = Return Undefined.
Proof. vm_compute. done. Qed.
